(** * Mastersteam: a shallow embedding of [valve/util.go] and [Mastersteam.go]

    The development follows the Go packages of the repository:

    - [Valve]: the fault-containment policy of [valve/util.go]
      ([tryAndCatch], [tryNoCatch] and the package variable [Try]);
    - [Mastersteam]: the orchestration of [Mastersteam.go] (the JSON sink
      [addJSON]/[addError], the per-address callback handed to the batch
      processor, and [newServerQuerier], which writes the envelope), with
      [Handlers] for the arguments of a request and [Race] for calls of
      [addJSON] that overlap.

    Go values are modelled as the code has them: [uint8]/[uint16]/[uint64]
    fields are [Z], the counter [sNumServers] is an [int64] whose increment
    wraps, an [error] is [option GoError] ([None] is Go's [nil]), a slice
    that may be [nil] is an [option (list _)], and the [bytes.Buffer] is the
    text written so far.  Panics, [os.Exit] and [defer] are explicit in the
    result type of the monad [M]. *)

From Stdlib Require Import ZArith List String Ascii Lia Bool DecimalString.
From Stdlib.Strings Require Import Byte.
Import ListNotations.
Open Scope string_scope.
Open Scope Z_scope.

(** Decimal rendering of an integer, as [fmt]'s verb [%d] prints it. *)
Definition fmt_d (n : Z) : string := NilZero.string_of_int (Z.to_int n).

(* ================================================================== *)
(** ** Package [valve]: [util.go] *)
(* ================================================================== *)

Module Valve.

(** Modelled from the spec: the error taxonomy of section 7.  The source has
    no such classification: a Go [error] is an opaque value with a text. *)
Inductive ErrorKind : Type :=
| NetworkError
| TimeoutError
| ProtocolError
| MalformedFrame
| DirectoryError.

(** A non-nil Go [error] value, by the way it came to be: built by
    [errors.New] or [fmt.Errorf], raised by the Go runtime (an index out of
    range, a nil dereference: a [runtime.Error]), or an error that the
    taxonomy of the spec would classify. *)
Inductive GoError : Type :=
| ErrorString (text : string)
| RuntimeError (text : string)
| KindError (k : ErrorKind) (text : string).

(** The Go type [error]: [None] is [nil]. *)
Definition error : Type := option GoError.

(** The method [Error() string]. *)
Definition Error (e : GoError) : string :=
  match e with
  | ErrorString t => t
  | RuntimeError t => t
  | KindError _ t => t
  end.

(** The kind the taxonomy gives an error, when it gives one. *)
Definition kind_of (e : GoError) : option ErrorKind :=
  match e with
  | KindError k _ => Some k
  | _ => None
  end.

(** A value of type [interface{}], as [panic] takes one and [recover]
    returns one: [nil], an [error], or a value of another type (a string
    or an integer here).  The repository has no [go.mod], so it builds with
    the legacy meaning of [panic(nil)]: the panic carries [nil] and
    [recover] returns [nil] for it. *)
Inductive PanicValue : Type :=
| PNil
| PError (e : GoError)
| PString (s : string)
| PInt (n : Z).

(** How a call ends: it returns a value or it panics. *)
Inductive Outcome (A : Type) : Type :=
| Returns (a : A)
| Panics (r : PanicValue).
Arguments Returns {A} a.
Arguments Panics {A} r.

(** [fmt.Sprintf("%v", r)] on a panic value. *)
Definition fmt_v (r : PanicValue) : string :=
  match r with
  | PNil => "<nil>"
  | PError e => Error e
  | PString s => s
  | PInt n => fmt_d n
  end.

(** [fmt.Errorf("%v", r)]. *)
Definition Errorf_v (r : PanicValue) : GoError := ErrorString (fmt_v r).

(** The built-in [recover()], called by a deferred function while the
    enclosing call ends with [o]: [nil] when the call is not panicking,
    otherwise the value of the panic, which may itself be [nil]. *)
Definition recover {A : Type} (o : Outcome A) : PanicValue :=
  match o with
  | Returns _ => PNil
  | Panics r => r
  end.

(** The type assertion [err, ok := r.(error)]. *)
Definition as_error (r : PanicValue) : error * bool :=
  match r with
  | PError e => (Some e, true)
  | _ => (None, false)
  end.

Section WithState.

(** What a [func() error] may read and write besides its result. *)
Variable State : Type.

(** A Go [func() error]. *)
Definition Func : Type := State -> Outcome error * State.

(** A policy: [func(fn func() error) error]. *)
Definition Policy : Type := Func -> Func.

(** [tryAndCatch], lines 8-24.  [outErr] starts as [nil]; the inner closure
    assigns it the result of [fn()] when [fn] returns; its deferred function
    runs on both ways out, stops the panic if there is one, and overwrites
    [outErr] when [recover()] is not [nil]. *)
Definition tryAndCatch : Policy := fun fn s =>
  let outErr : error := None in
  let '(o, s') := fn s in
  let outErr := match o with
                | Returns e => e
                | Panics _ => outErr
                end in
  let outErr := match recover o with
                | PNil => outErr
                | r =>
                    let '(err, ok) := as_error r in
                    let err := if negb ok then Some (Errorf_v r) else err in
                    err
                end in
  (Returns outErr, s').

(** [tryNoCatch], lines 26-28. *)
Definition tryNoCatch : Policy := fun fn => fn.

(** The package-level variables of [valve]: [var Try = tryAndCatch]. *)
Record Globals : Type := { Try : Policy }.

Definition init : Globals := {| Try := tryAndCatch |}.

(** An assignment [valve.Try = p]. *)
Definition set_Try (p : Policy) (g : Globals) : Globals := {| Try := p |}.

End WithState.

Arguments tryAndCatch {State} fn s.
Arguments tryNoCatch {State} fn.
Arguments Try {State} g.
Arguments init {State}.
Arguments set_Try {State} p g.

(** The types of package [valve] that [Mastersteam.go] reads.  Their
    declarations are in files of the package that are not embedded here;
    the fields are the ones the caller uses, with the widths [ServerObject]
    gives them. *)

(** [*ServerInfoExt]: the optional extended block of an info reply. *)
Record ServerInfoExt : Type := {
  AppId : Z;
  GameVersion : string;
  Port : Z;
  SteamId : Z;
  GameModeDescription : string;
  GameId : Z
}.

(** [*ServerInfo]: [Type_] and [OS] are the received bytes, rendered by their
    [String()] methods; [Ext] is [nil] when the server sent no block. *)
Record ServerInfo : Type := {
  Protocol : Z;
  Name : string;
  MapName : string;
  Folder : string;
  Game : string;
  Players : Z;
  MaxPlayers : Z;
  Bots : Z;
  Type_ : Z;
  OS : Z;
  Vac : Z;
  Visibility : Z;
  Ext : option ServerInfoExt
}.

(** [*ServerQuerier]: the handle [NewServerQuerier] returns for an address. *)
Record ServerQuerier : Type := { hostAndPort : string }.

(** [*MasterServerQuerier], seen from its caller.
    Modelled from the spec: the upstream directory (section 4.3) answers a
    run with a sequence of pages and then either ends the enumeration or
    fails with a [DirectoryError]. *)
Record MasterServerQuerier : Type := {
  pages : list (list string);
  failure : error
}.

End Valve.

(* ================================================================== *)
(** ** Package [main]: [Mastersteam.go] *)
(* ================================================================== *)

Module Mastersteam.

(** The characters the format strings of the file escape. *)
Definition LF : string := String "010"%char EmptyString.
Definition TAB : string := String "009"%char EmptyString.
Definition QUOTE : string := String "034"%char EmptyString.

(** [int64] arithmetic: the value of a sum after it wraps. *)
Definition wrap64 (n : Z) : Z := (n + 2 ^ 63) mod 2 ^ 64 - 2 ^ 63.

(** [time.Second], in nanoseconds. *)
Definition Second : Z := 1000000000.

(** An address of the server list, [*net.TCPAddr], by the text its
    [String()] method gives (host and port). *)
Definition TCPAddr : Type := string.
Definition TCPAddr_String (addr : TCPAddr) : string := addr.

(** [ErrorObject], lines 31-34. *)
Record ErrorObject : Type := {
  IP : string;
  Error : string
}.

(** What the program does to the outside, in the order it does it. *)
Inductive Event : Type :=
| NewServerQuerier_call (addr : string) (timeout : Z)
| QueryInfo_call (addr : string)
| QueryPlayers_call (addr : string)
| Close_call (addr : string)
| Terminate_call
| Finish_call
| log_Printf (msg : string)
| os_Exit (code : Z).

(** The state a run works on: the package variables [sOutputBuffer],
    [sNumServers] and [master]; the work queue of the batch processor and
    the pace of its workers ([sched]: how many queued tasks the pool gets
    through while the producer hands over its next batch); the events so
    far. *)
Record World : Type := {
  sOutputBuffer : string;
  sNumServers : Z;
  master : Valve.MasterServerQuerier;
  bp_queue : list TCPAddr;
  sched : list nat;
  trace : list Event
}.

Definition with_buffer (b : string) (w : World) : World :=
  {| sOutputBuffer := b; sNumServers := sNumServers w; master := master w;
     bp_queue := bp_queue w; sched := sched w; trace := trace w |}.

Definition with_count (n : Z) (w : World) : World :=
  {| sOutputBuffer := sOutputBuffer w; sNumServers := n; master := master w;
     bp_queue := bp_queue w; sched := sched w; trace := trace w |}.

Definition with_master (m : Valve.MasterServerQuerier) (w : World) : World :=
  {| sOutputBuffer := sOutputBuffer w; sNumServers := sNumServers w;
     master := m; bp_queue := bp_queue w; sched := sched w; trace := trace w |}.

Definition with_queue (q : list TCPAddr) (w : World) : World :=
  {| sOutputBuffer := sOutputBuffer w; sNumServers := sNumServers w;
     master := master w; bp_queue := q; sched := sched w; trace := trace w |}.

Definition with_sched (s : list nat) (w : World) : World :=
  {| sOutputBuffer := sOutputBuffer w; sNumServers := sNumServers w;
     master := master w; bp_queue := bp_queue w; sched := s; trace := trace w |}.

Definition with_trace (t : list Event) (w : World) : World :=
  {| sOutputBuffer := sOutputBuffer w; sNumServers := sNumServers w;
     master := master w; bp_queue := bp_queue w; sched := sched w; trace := t |}.

(** *** The monad of the program: state, panics and process exit *)

(** How a piece of the program ends: normally, by a panic nobody recovered,
    or by [os.Exit], which ends the process at once. *)
Inductive Result (A : Type) : Type :=
| Ok (a : A) (w : World)
| Panic (r : Valve.PanicValue) (w : World)
| Exit (code : Z) (w : World).
Arguments Ok {A} a w.
Arguments Panic {A} r w.
Arguments Exit {A} code w.

Definition M (A : Type) : Type := World -> Result A.

Definition ret {A : Type} (a : A) : M A := fun w => Ok a w.

Definition bind {A B : Type} (m : M A) (f : A -> M B) : M B := fun w =>
  match m w with
  | Ok a w' => f a w'
  | Panic r w' => Panic r w'
  | Exit c w' => Exit c w'
  end.

Declare Scope go_scope.
Delimit Scope go_scope with go.
Notation "x <- m ;; k" := (bind m (fun x => k))
  (at level 61, m at next level, right associativity) : go_scope.
Notation "m ;; k" := (bind m (fun _ => k))
  (at level 61, right associativity) : go_scope.
Open Scope go_scope.

Definition gets {A : Type} (f : World -> A) : M A := fun w => Ok (f w) w.
Definition modify (f : World -> World) : M unit := fun w => Ok tt (f w).
Definition emit (e : Event) : M unit :=
  modify (fun w => with_trace (trace w ++ [e]) w).

(** [panic(v)]. *)
Definition panic {A : Type} (r : Valve.PanicValue) : M A := fun w => Panic r w.

(** [os.Exit(code)]: no deferred function runs after it. *)
Definition exit {A : Type} (code : Z) : M A := fun w =>
  Exit code (with_trace (trace w ++ [os_Exit code]) w).

(** [defer cleanup()] in front of [body]: [cleanup] runs when [body] returns
    and when it panics (the panic goes on after it), not when the process
    exits. *)
Definition defer {A : Type} (cleanup : M unit) (body : M A) : M A := fun w =>
  match body w with
  | Ok a w' =>
      match cleanup w' with
      | Ok _ w'' => Ok a w''
      | Panic r w'' => Panic r w''
      | Exit c w'' => Exit c w''
      end
  | Panic r w' =>
      match cleanup w' with
      | Ok _ w'' => Panic r w''
      | Panic r' w'' => Panic r' w''
      | Exit c w'' => Exit c w''
      end
  | Exit c w' => Exit c w'
  end.

(** The world a piece of the program leaves behind, however it ends. *)
Definition world_of {A : Type} (r : Result A) : World :=
  match r with
  | Ok _ w => w
  | Panic _ w => w
  | Exit _ w => w
  end.

(** [sOutputBuffer.WriteString(s)] and [sOutputBuffer.Reset()]. *)
Definition WriteString (s : string) : M unit :=
  modify (fun w => with_buffer (sOutputBuffer w ++ s) w).
Definition Reset : M unit := modify (with_buffer EmptyString).

Section Program.

(** [valve.Player]: the program passes the roster on and never looks
    inside an entry. *)
Context {Player : Type}.

(** [ServerObject], lines 39-61.  [PlayersOnline] is a slice: [None] is
    [nil]. *)
Record ServerObject : Type := {
  Address : string;
  Protocol : Z;
  Name : string;
  MapName : string;
  Folder : string;
  Game : string;
  Players : Z;
  MaxPlayers : Z;
  Bots : Z;
  Type_ : string;
  Os : string;
  Visibility : string;
  Vac : bool;
  AppID : Z;
  GameVersion : string;
  Port : Z;
  SteamID : string;
  GameMode : string;
  GameID : string;
  PlayersOnline : option (list Player)
}.

(** The values handed to [addJSON] as [obj interface{}]. *)
Inductive JObj : Type :=
| JError (e : ErrorObject)
| JServer (s : ServerObject).

(** What the program calls and does not define: the [String()] methods of
    the server-type and OS fields, [encoding/json], and the three network
    operations of a server querier, each answering for an address. *)
Record Env : Type := {
  ServerType_String : Z -> string;
  ServerOS_String : Z -> string;
  json_Marshal : JObj -> string + Valve.GoError;
  json_Indent : string -> string;
  net_dial : string -> Valve.error;
  net_info : string -> Valve.ServerInfo + Valve.GoError;
  net_players : string -> option (list Player) + Valve.GoError
}.

Variable env : Env.

(** [valve.NewServerQuerier(addr, timeout)]. *)
Definition NewServerQuerier (addr : string) (timeout : Z)
  : M (Valve.ServerQuerier + Valve.GoError) :=
  emit (NewServerQuerier_call addr timeout) ;;
  ret (match net_dial env addr with
       | Some err => inr err
       | None => inl {| Valve.hostAndPort := addr |}
       end).

(** [query.QueryInfo()], [query.QueryPlayers()], [query.Close()]. *)
Definition QueryInfo (query : Valve.ServerQuerier)
  : M (Valve.ServerInfo + Valve.GoError) :=
  emit (QueryInfo_call (Valve.hostAndPort query)) ;;
  ret (net_info env (Valve.hostAndPort query)).

Definition QueryPlayers (query : Valve.ServerQuerier)
  : M (option (list Player) + Valve.GoError) :=
  emit (QueryPlayers_call (Valve.hostAndPort query)) ;;
  ret (net_players env (Valve.hostAndPort query)).

Definition Close (query : Valve.ServerQuerier) : M unit :=
  emit (Close_call (Valve.hostAndPort query)).

(** [addJSON], lines 63-80. *)
Definition addJSON (hostAndPort : string) (obj : JObj) : M unit :=
  match json_Marshal env obj with
  | inr err => panic (Valve.PError err)
  | inl buf =>
      let indented := json_Indent env buf in
      n <- gets sNumServers ;;
      (if negb (n =? 0) then WriteString "," else ret tt) ;;
      WriteString (LF ++ TAB ++ QUOTE ++ hostAndPort ++ QUOTE ++ ": ") ;;
      WriteString indented ;;
      modify (fun w => with_count (wrap64 (sNumServers w + 1)) w)
  end.

(** [addError], lines 82-87. *)
Definition addError (hostAndPort : string) (err : Valve.GoError) : M unit :=
  addJSON hostAndPort
    (JError {| IP := hostAndPort; Error := Valve.Error err |}).

(** The record of lines 167-179: the fields the literal does not name are
    the zero values of their types. *)
Definition out_literal (addr : string) (info : Valve.ServerInfo)
  : ServerObject :=
  {| Address := addr;
     Protocol := Valve.Protocol info;
     Name := Valve.Name info;
     MapName := Valve.MapName info;
     Folder := Valve.Folder info;
     Game := Valve.Game info;
     Players := Valve.Players info;
     MaxPlayers := Valve.MaxPlayers info;
     Bots := Valve.Bots info;
     Type_ := ServerType_String env (Valve.Type_ info);
     Os := ServerOS_String env (Valve.OS info);
     Visibility := EmptyString;
     Vac := false;
     AppID := 0;
     GameVersion := EmptyString;
     Port := 0;
     SteamID := EmptyString;
     GameMode := EmptyString;
     GameID := EmptyString;
     PlayersOnline := None |}.

Definition set_Vac (v : bool) (o : ServerObject) : ServerObject :=
  {| Address := Address o; Protocol := Protocol o; Name := Name o;
     MapName := MapName o; Folder := Folder o; Game := Game o;
     Players := Players o; MaxPlayers := MaxPlayers o; Bots := Bots o;
     Type_ := Type_ o; Os := Os o; Visibility := Visibility o; Vac := v;
     AppID := AppID o; GameVersion := GameVersion o; Port := Port o;
     SteamID := SteamID o; GameMode := GameMode o; GameID := GameID o;
     PlayersOnline := PlayersOnline o |}.

Definition set_Visibility (v : string) (o : ServerObject) : ServerObject :=
  {| Address := Address o; Protocol := Protocol o; Name := Name o;
     MapName := MapName o; Folder := Folder o; Game := Game o;
     Players := Players o; MaxPlayers := MaxPlayers o; Bots := Bots o;
     Type_ := Type_ o; Os := Os o; Visibility := v; Vac := Vac o;
     AppID := AppID o; GameVersion := GameVersion o; Port := Port o;
     SteamID := SteamID o; GameMode := GameMode o; GameID := GameID o;
     PlayersOnline := PlayersOnline o |}.

(** Lines 189-194: the six assignments from [info.Ext]. *)
Definition set_Ext (ext : Valve.ServerInfoExt) (o : ServerObject)
  : ServerObject :=
  {| Address := Address o; Protocol := Protocol o; Name := Name o;
     MapName := MapName o; Folder := Folder o; Game := Game o;
     Players := Players o; MaxPlayers := MaxPlayers o; Bots := Bots o;
     Type_ := Type_ o; Os := Os o; Visibility := Visibility o; Vac := Vac o;
     AppID := Valve.AppId ext;
     GameVersion := Valve.GameVersion ext;
     Port := Valve.Port ext;
     SteamID := fmt_d (Valve.SteamId ext);
     GameMode := Valve.GameModeDescription ext;
     GameID := fmt_d (Valve.GameId ext);
     PlayersOnline := PlayersOnline o |}.

Definition set_PlayersOnline (p : option (list Player)) (o : ServerObject)
  : ServerObject :=
  {| Address := Address o; Protocol := Protocol o; Name := Name o;
     MapName := MapName o; Folder := Folder o; Game := Game o;
     Players := Players o; MaxPlayers := MaxPlayers o; Bots := Bots o;
     Type_ := Type_ o; Os := Os o; Visibility := Visibility o; Vac := Vac o;
     AppID := AppID o; GameVersion := GameVersion o; Port := Port o;
     SteamID := SteamID o; GameMode := GameMode o; GameID := GameID o;
     PlayersOnline := p |}.

(** Lines 167-195: the record built from a decoded info reply, before the
    player query. *)
Definition build_out (addr : string) (info : Valve.ServerInfo)
  : ServerObject :=
  let out := out_literal addr info in
  let out := if Valve.Vac info =? 1 then set_Vac true out else out in
  let out := if Valve.Visibility info =? 0
             then set_Visibility "public" out
             else set_Visibility "private" out in
  match Valve.Ext info with
  | Some ext => set_Ext ext out
  | None => out
  end.

(** The callback given to the batch processor, lines 150-207. *)
Definition callback (flagTimeout : Z) (item : TCPAddr) : M unit :=
  let addr := item in
  r <- NewServerQuerier (TCPAddr_String addr) flagTimeout ;;
  match r with
  | inr err => addError (TCPAddr_String addr) err
  | inl query =>
      defer (Close query)
        (r <- QueryInfo query ;;
         match r with
         | inr err => addError (TCPAddr_String addr) err
         | inl info =>
             emit (log_Printf (TCPAddr_String addr ++ " - "
                               ++ Valve.Name info ++ LF)) ;;
             let out := build_out (TCPAddr_String addr) info in
             out <- (if 0 <? Valve.Players info
                     then
                       r <- QueryPlayers query ;;
                       match r with
                       | inr _ => ret (set_PlayersOnline None out)
                       | inl players => ret (set_PlayersOnline players out)
                       end
                     else ret out) ;;
             addJSON (TCPAddr_String addr) (JServer out)
         end)
  end.

(** *** The batch processor and the master query, as their caller sees them *)

(** Modelled from the spec: [batch.BatchProcessor] (section 4.4); package
    [batch] is not embedded here.  The pool holds a queue of
    per-address tasks; a worker takes a task off the queue and runs the
    callback on it; a panic in a worker ends the process like any panic
    nobody recovers. *)
Record BatchProcessor : Type := {
  bp_callback : TCPAddr -> M unit;
  bp_width : Z
}.

(** Modelled from the spec: the workers get through [n] queued tasks (or
    all of them when fewer are queued).  This is the pool on one of its
    schedules: the tasks are taken in the order they were queued and a
    callback runs to its end before the next one starts.  Callbacks that
    overlap are the matter of [Race]. *)
Fixpoint work (cb : TCPAddr -> M unit) (n : nat) : M unit :=
  match n with
  | O => ret tt
  | S k => fun w =>
      match bp_queue w with
      | [] => Ok tt w
      | item :: q => (cb item ;; work cb k) (with_queue q w)
      end
  end.

(** Modelled from the spec: [batch.NewBatchProcessor(callback, width)]
    starts a pool with an empty queue. *)
Definition NewBatchProcessor (cb : TCPAddr -> M unit) (width : Z)
  : M BatchProcessor :=
  modify (with_queue []) ;;
  ret {| bp_callback := cb; bp_width := width |}.

(** The next step of the pace of the pool. *)
Definition next_sched : M nat := fun w =>
  match sched w with
  | [] => Ok O w
  | k :: s => Ok k (with_sched s w)
  end.

(** Modelled from the spec: [AddBatch] enqueues one task per address; the
    workers drain the queue at their own pace meanwhile. *)
Definition AddBatch (bp : BatchProcessor) (servers : list TCPAddr) : M unit :=
  modify (fun w => with_queue (bp_queue w ++ servers) w) ;;
  k <- next_sched ;;
  work (bp_callback bp) k.

(** Modelled from the spec: [Finish] returns when every queued task has
    produced its outcome. *)
Definition Finish (bp : BatchProcessor) : M unit :=
  emit Finish_call ;;
  q <- gets bp_queue ;;
  work (bp_callback bp) (List.length q).

(** Modelled from the spec: [Terminate] abandons the tasks still queued. *)
Definition Terminate (bp : BatchProcessor) : M unit :=
  emit Terminate_call ;;
  modify (with_queue []).

(** Modelled from the spec: [master.Query(onBatch)] (section 4.3) hands
    each page to [onBatch] as it arrives, stops with the error of the
    first [onBatch] that fails, and returns the [DirectoryError] of the
    upstream when the enumeration fails. *)
Fixpoint Query_pages (ps : list (list TCPAddr)) (failure : Valve.error)
                     (onBatch : list TCPAddr -> M Valve.error)
  : M Valve.error :=
  match ps with
  | [] => ret failure
  | servers :: rest =>
      err <- onBatch servers ;;
      match err with
      | Some e => ret (Some e)
      | None => Query_pages rest failure onBatch
      end
  end.

Definition master_Query (onBatch : list TCPAddr -> M Valve.error)
  : M Valve.error :=
  m <- gets master ;;
  Query_pages (Valve.pages m) (Valve.failure m) onBatch.

(** *** [newServerQuerier], lines 143-238 *)

(** The top of the envelope (lines 212-213) and its bottom (lines 233-235)
    for a counter of [n]. *)
Definition header : string := "{" ++ LF ++ TAB ++ QUOTE ++ "data" ++ QUOTE ++ " : [{".

Definition footer (n : Z) : string :=
  "}]," ++ LF ++ TAB ++ QUOTE ++ "total" ++ QUOTE ++ ":" ++ fmt_d n ++ LF
  ++ "}" ++ LF.

Definition newServerQuerier : M unit :=
  let flagTimeout := Second * 3 in
  let flagJ := 20 in
  modify (with_count 0) ;;
  Reset ;;
  bp <- NewBatchProcessor (callback flagTimeout) flagJ ;;
  defer (Terminate bp)
    (WriteString ("{" ++ LF) ;;
     WriteString (TAB ++ QUOTE ++ "data" ++ QUOTE ++ " : [{") ;;
     err <- master_Query (fun servers => AddBatch bp servers ;; ret None) ;;
     match err with
     | Some e =>
         emit (log_Printf ("Could not query the master: "
                           ++ Valve.Error e ++ LF)) ;;
         exit 1
     | None => ret tt
     end ;;
     Finish bp ;;
     WriteString ("}]," ++ LF) ;;
     n <- gets sNumServers ;;
     WriteString (TAB ++ QUOTE ++ "total" ++ QUOTE ++ ":" ++ fmt_d n ++ LF) ;;
     WriteString ("}" ++ LF)).

(** *** The HTTP handlers, lines 99-132 *)

(** What a handler writes to its [http.ResponseWriter]. *)
Record Response : Type := {
  ContentType : string;
  Body : string
}.

(** [httpMasterSearch] and [httpServer] differ in the filters they set on
    the master querier; [m] is the querier [newMasterServerQuerier] left
    in [master], filters applied.  Then both run [newServerQuerier] and
    write the buffer. *)
Definition httpServer (m : Valve.MasterServerQuerier) : M Response :=
  modify (with_master m) ;;
  newServerQuerier ;;
  body <- gets sOutputBuffer ;;
  ret {| ContentType := "application/json; charset=UTF-8"; Body := body |}.

End Program.

Arguments ServerObject : clear implicits.
Arguments JObj : clear implicits.
Arguments Env : clear implicits.

End Mastersteam.

(* ================================================================== *)
(** ** Package [main]: the request handlers *)
(* ================================================================== *)

Module Handlers.
Import Mastersteam.

(** [strings.Count(s, sep)] and [strings.Split(s, sep)] for a separator of
    one byte, the only use the file makes of them: the pieces of [s]
    between the separators, one more than there are separators. *)
Fixpoint Count (s : string) (sep : ascii) : nat :=
  match s with
  | EmptyString => O
  | String c s' => if Ascii.eqb c sep then S (Count s' sep) else Count s' sep
  end.

Fixpoint Split (s : string) (sep : ascii) : list string :=
  match s with
  | EmptyString => [EmptyString]
  | String c s' =>
      if Ascii.eqb c sep then EmptyString :: Split s' sep
      else match Split s' sep with
           | piece :: pieces => String c piece :: pieces
           | [] => [String c EmptyString]
           end
  end.

(** The index expression [a[i]] on a slice: out of range, the Go runtime
    panics with a [runtime.Error]. *)
Definition index (a : list string) (i : nat) : M string :=
  match nth_error a i with
  | Some x => ret x
  | None =>
      panic (Valve.PError
               (Valve.RuntimeError
                  ("runtime error: index out of range ["
                   ++ fmt_d (Z.of_nat i) ++ "] with length "
                   ++ fmt_d (Z.of_nat (List.length a)))))
  end.

Section Routes.

(** [strconv.Atoi] and [url.QueryUnescape]: a value and an error. *)
Variable Atoi : string -> Z * Valve.error.
Variable QueryUnescape : string -> string * Valve.error.

(** What the handlers do once they have read their arguments: lines 104-115
    for an application id and a name pattern, lines 122-131 for a host. *)
Variable search : Z -> string -> M Response.
Variable server : string -> M Response.

(** [httpMasterSearch], lines 99-103; [url] is [r.URL.String()]. *)
Definition httpMasterSearch (url : string) : M Response :=
  let uriSegments := Split url "/" in
  seg <- index uriSegments 2 ;;
  let '(appID, _) := Atoi seg in
  seg <- index uriSegments 3 ;;
  let '(hostname, _) := QueryUnescape seg in
  search appID hostname.

(** [httpServer], lines 118-121. *)
Definition httpServer (url : string) : M Response :=
  let uriSegments := Split url "/" in
  seg <- index uriSegments 2 ;;
  let '(host, _) := QueryUnescape seg in
  server host.

End Routes.

End Handlers.

(* ================================================================== *)
(** ** Package [main]: [addJSON] under concurrent workers *)
(* ================================================================== *)

Module Race.
Import Mastersteam.

(** The pool has several workers (20, [flagJ]), and each runs the callback,
    so calls of [addJSON] overlap; [addJSON] takes no lock.  Here a call is
    cut at each access to the shared [sOutputBuffer] and [sNumServers]
    (lines 72-79); each access is one step, and the increment of line 79
    is a read and a write. *)
Inductive Pc : Type :=
| AtCheck
| AtComma
| AtKey
| AtText
| AtLoad
| AtStore (seen : Z)
| Returned.

(** A call under way: its argument, the indented JSON it made (lines
    64-70, on its own variables), and where it stands. *)
Record Call : Type := {
  hostAndPort : string;
  indented : string;
  pc : Pc
}.

Definition at_pc (p : Pc) (c : Call) : Call :=
  {| hostAndPort := hostAndPort c; indented := indented c; pc := p |}.

(** A call that has done lines 64-70 and stands before line 72. *)
Definition call (host text : string) : Call :=
  {| hostAndPort := host; indented := text; pc := AtCheck |}.

(** One step of a call. *)
Definition step (c : Call) (w : World) : Call * World :=
  match pc c with
  | AtCheck =>
      (at_pc (if negb (sNumServers w =? 0) then AtComma else AtKey) c, w)
  | AtComma =>
      (at_pc AtKey c, with_buffer (sOutputBuffer w ++ ",") w)
  | AtKey =>
      (at_pc AtText c,
       with_buffer (sOutputBuffer w
                    ++ (LF ++ TAB ++ QUOTE ++ hostAndPort c ++ QUOTE ++ ": "))
         w)
  | AtText =>
      (at_pc AtLoad c, with_buffer (sOutputBuffer w ++ indented c) w)
  | AtLoad =>
      (at_pc (AtStore (sNumServers w)) c, w)
  | AtStore seen =>
      (at_pc Returned c, with_count (wrap64 (seen + 1)) w)
  | Returned => (c, w)
  end.

(** A call run on its own, to its end (it has at most six steps). *)
Definition alone (c : Call) (w : World) : Call * World :=
  let '(c, w) := step c w in
  let '(c, w) := step c w in
  let '(c, w) := step c w in
  let '(c, w) := step c w in
  let '(c, w) := step c w in
  step c w.

(** The calls under way take steps in the order of [schedule], which
    names at each turn the call that moves. *)
Fixpoint step_nth (i : nat) (calls : list Call) (w : World)
  : list Call * World :=
  match calls, i with
  | [], _ => ([], w)
  | c :: rest, O => let '(c', w') := step c w in (c' :: rest, w')
  | c :: rest, S j =>
      let '(rest', w') := step_nth j rest w in (c :: rest', w')
  end.

Fixpoint run (schedule : list nat) (calls : list Call) (w : World)
  : list Call * World :=
  match schedule with
  | [] => (calls, w)
  | i :: schedule' =>
      let '(calls', w') := step_nth i calls w in run schedule' calls' w'
  end.

(** Two workers side by side: each checks the counter, writes its entry
    and reads the counter before either writes it back. *)
Definition side_by_side : list nat :=
  [0; 0; 0; 0; 1; 1; 1; 1; 0; 1]%nat.

(** Lines 233-235, once the pool is done. *)
Definition close_envelope : M unit :=
  WriteString ("}]," ++ LF) ;;
  n <- gets sNumServers ;;
  WriteString (TAB ++ QUOTE ++ "total" ++ QUOTE ++ ":" ++ fmt_d n ++ LF) ;;
  WriteString ("}" ++ LF).

Section WithEnv.

Context {Player : Type}.
Variable env : Env Player.

(** Lines 64-70: the call [addJSON(hostAndPort, obj)] up to line 72, or
    the error it panics with. *)
Definition enter (host : string) (obj : JObj Player)
  : Call + Valve.GoError :=
  match json_Marshal env obj with
  | inl buf => inl (call host (json_Indent env buf))
  | inr err => inr err
  end.

End WithEnv.

End Race.

(* ================================================================== *)
(** ** Package [valve]: the wire codec *)
(* ================================================================== *)

Module WireCodec.
Local Open Scope list_scope.

(** Modelled from the spec: the Wire Codec of sections 3, 4.1 and 6; the
    protocol files of package [valve] are not embedded here.  A frame is
    the four marker bytes, a type marker and a body of fields read one after
    the other, each read checked against what is left of the buffer.  What
    the spec leaves open (the width and byte order of a number, the byte
    that stands for an enumeration value or a type marker) is a [Layout]:
    a codec per kind of field. *)
Definition bytes : Type := list byte.

(** Modelled from the spec: the result of a decode, a value and the bytes
    after it, or the [MalformedFrame] failure. *)
Inductive Decoded (A : Type) : Type :=
| Parsed (a : A) (rest : bytes)
| MalformedFrame.
Arguments Parsed {A} a rest.
Arguments MalformedFrame {A}.

Definition andThen {A B : Type} (d : Decoded A) (k : A -> bytes -> Decoded B)
  : Decoded B :=
  match d with
  | Parsed a rest => k a rest
  | MalformedFrame => MalformedFrame
  end.

(** Modelled from the spec: the codec of one kind of field, an encoder, a
    decoder that reads the field off the front of a buffer, the values the
    field can hold, and the law that ties them. *)
Record Codec (A : Type) : Type := {
  encode : A -> bytes;
  decode : bytes -> Decoded A;
  valid : A -> Prop;
  decode_encode :
    forall a rest, valid a -> decode (encode a ++ rest) = Parsed a rest
}.
Arguments encode {A} c a.
Arguments decode {A} c bs.
Arguments valid {A} c a.
Arguments decode_encode {A} c a rest H.

(** Modelled from the spec: the closed enumerations of section 3. *)
Inductive ServerType : Type := dedicated | listen | proxy.
Inductive OS : Type := linux | windows | mac.
Inductive Visibility : Type := public | private.

(** Modelled from the spec: the kinds of single-packet response. *)
Inductive Opcode : Type := OpChallenge | OpInfo | OpPlayers.

(** Modelled from the spec: the extended block of an InfoRecord. *)
Record ExtendedBlock : Type := {
  application_id : Z;
  game_version : string;
  query_port : Z;
  identity_id : Z;
  game_mode : string;
  game_id : string
}.

(** Modelled from the spec: InfoRecord (section 3). *)
Record InfoRecord : Type := {
  protocol_version : Z;
  display_name : string;
  map_name : string;
  content_folder : string;
  game_description : string;
  current_players : Z;
  maximum_players : Z;
  bot_players : Z;
  server_type : ServerType;
  os : OS;
  visibility : Visibility;
  anti_cheat : bool;
  extended : option ExtendedBlock
}.

(** Modelled from the spec: PlayerRecord (section 3); the duration is the
    number its field holds. *)
Record PlayerRecord : Type := {
  player_index : Z;
  player_name : string;
  score : Z;
  duration : Z
}.

(** Modelled from the spec: what a decoded datagram is (section 4.1,
    [decodeResponseHeader]); a fragment is kept as it came. *)
Inductive Response : Type :=
| ChallengeRequired (challenge : Z)
| InfoResponse (info : InfoRecord)
| PlayerResponse (players : list PlayerRecord)
| SplitFragment (fragment : bytes).

(** Modelled from the spec: a codec per kind of field. *)
Record Layout : Type := {
  opcode_byte : Opcode -> byte;
  opcode_byte_inj : forall a b, opcode_byte a = opcode_byte b -> a = b;
  c_challenge : Codec Z;
  c_version : Codec Z;
  c_count : Codec Z;
  c_length : Codec Z;
  c_server_type : Codec ServerType;
  c_os : Codec OS;
  c_visibility : Codec Visibility;
  c_flag : Codec bool;
  c_app_id : Codec Z;
  c_port : Codec Z;
  c_identity : Codec Z;
  c_score : Codec Z;
  c_duration : Codec Z
}.

(** Modelled from the spec: the markers of section 6. *)
Definition single_packet_marker : bytes := [xff; xff; xff; xff].
Definition split_packet_marker : bytes := [xfe; xff; xff; xff].

Fixpoint bytes_eqb (a b : bytes) : bool :=
  match a, b with
  | [], [] => true
  | x :: a', y :: b' => Byte.eqb x y && bytes_eqb a' b'
  | _, _ => false
  end.

Section WithLayout.

Variable L : Layout.

(** Modelled from the spec: a length-prefixed string; the length is checked
    against the bytes left before the read. *)
Definition encode_string (s : string) : bytes :=
  let bs := list_byte_of_string s in
  encode (c_length L) (Z.of_nat (List.length bs)) ++ bs.

Definition decode_string (bs : bytes) : Decoded string :=
  andThen (decode (c_length L) bs) (fun n rest =>
    if (n <? 0) || (Z.of_nat (List.length rest) <? n)
    then MalformedFrame
    else Parsed (string_of_list_byte (firstn (Z.to_nat n) rest))
                (skipn (Z.to_nat n) rest)).

Definition valid_string (s : string) : Prop :=
  valid (c_length L) (Z.of_nat (List.length (list_byte_of_string s))).

(** Modelled from the spec: the extended block, field after field. *)
Definition encode_extended (e : ExtendedBlock) : bytes :=
  encode (c_app_id L) (application_id e)
  ++ encode_string (game_version e)
  ++ encode (c_port L) (query_port e)
  ++ encode (c_identity L) (identity_id e)
  ++ encode_string (game_mode e)
  ++ encode_string (game_id e).

Definition decode_extended (bs : bytes) : Decoded ExtendedBlock :=
  andThen (decode (c_app_id L) bs) (fun app bs =>
  andThen (decode_string bs) (fun ver bs =>
  andThen (decode (c_port L) bs) (fun port bs =>
  andThen (decode (c_identity L) bs) (fun ident bs =>
  andThen (decode_string bs) (fun mode bs =>
  andThen (decode_string bs) (fun gid bs =>
  Parsed {| application_id := app; game_version := ver; query_port := port;
            identity_id := ident; game_mode := mode; game_id := gid |}
         bs)))))).

Definition valid_extended (e : ExtendedBlock) : Prop :=
  valid (c_app_id L) (application_id e)
  /\ valid_string (game_version e)
  /\ valid (c_port L) (query_port e)
  /\ valid (c_identity L) (identity_id e)
  /\ valid_string (game_mode e)
  /\ valid_string (game_id e).

(** Modelled from the spec: the body of an info response, the fields of
    InfoRecord in the order of section 3; a flag says whether the extended
    block follows. *)
Definition encode_info_body (x : InfoRecord) : bytes :=
  encode (c_version L) (protocol_version x)
  ++ encode_string (display_name x)
  ++ encode_string (map_name x)
  ++ encode_string (content_folder x)
  ++ encode_string (game_description x)
  ++ encode (c_count L) (current_players x)
  ++ encode (c_count L) (maximum_players x)
  ++ encode (c_count L) (bot_players x)
  ++ encode (c_server_type L) (server_type x)
  ++ encode (c_os L) (os x)
  ++ encode (c_visibility L) (visibility x)
  ++ encode (c_flag L) (anti_cheat x)
  ++ match extended x with
     | Some e => encode (c_flag L) true ++ encode_extended e
     | None => encode (c_flag L) false
     end.

Definition decodeInfoBody (bs : bytes) : Decoded InfoRecord :=
  andThen (decode (c_version L) bs) (fun ver bs =>
  andThen (decode_string bs) (fun name bs =>
  andThen (decode_string bs) (fun map bs =>
  andThen (decode_string bs) (fun folder bs =>
  andThen (decode_string bs) (fun game bs =>
  andThen (decode (c_count L) bs) (fun cur bs =>
  andThen (decode (c_count L) bs) (fun max bs =>
  andThen (decode (c_count L) bs) (fun bots bs =>
  andThen (decode (c_server_type L) bs) (fun ty bs =>
  andThen (decode (c_os L) bs) (fun o bs =>
  andThen (decode (c_visibility L) bs) (fun vis bs =>
  andThen (decode (c_flag L) bs) (fun vac bs =>
  andThen (decode (c_flag L) bs) (fun has_ext bs =>
  andThen (if has_ext : bool
           then andThen (decode_extended bs) (fun e bs => Parsed (Some e) bs)
           else Parsed None bs) (fun ext bs =>
  Parsed {| protocol_version := ver; display_name := name; map_name := map;
            content_folder := folder; game_description := game;
            current_players := cur; maximum_players := max;
            bot_players := bots; server_type := ty; os := o;
            visibility := vis; anti_cheat := vac; extended := ext |}
         bs)))))))))))))).

Definition valid_info (x : InfoRecord) : Prop :=
  valid (c_version L) (protocol_version x)
  /\ valid_string (display_name x)
  /\ valid_string (map_name x)
  /\ valid_string (content_folder x)
  /\ valid_string (game_description x)
  /\ valid (c_count L) (current_players x)
  /\ valid (c_count L) (maximum_players x)
  /\ valid (c_count L) (bot_players x)
  /\ valid (c_server_type L) (server_type x)
  /\ valid (c_os L) (os x)
  /\ valid (c_visibility L) (visibility x)
  /\ valid (c_flag L) (anti_cheat x)
  /\ valid (c_flag L) (match extended x with Some _ => true | None => false end)
  /\ match extended x with Some e => valid_extended e | None => True end.

(** Modelled from the spec: one player entry, and a roster: a count
    followed by that many entries. *)
Definition encode_player (p : PlayerRecord) : bytes :=
  encode (c_count L) (player_index p)
  ++ encode_string (player_name p)
  ++ encode (c_score L) (score p)
  ++ encode (c_duration L) (duration p).

Definition decode_player (bs : bytes) : Decoded PlayerRecord :=
  andThen (decode (c_count L) bs) (fun idx bs =>
  andThen (decode_string bs) (fun name bs =>
  andThen (decode (c_score L) bs) (fun sc bs =>
  andThen (decode (c_duration L) bs) (fun dur bs =>
  Parsed {| player_index := idx; player_name := name; score := sc;
            duration := dur |} bs)))).

Definition valid_player (p : PlayerRecord) : Prop :=
  valid (c_count L) (player_index p)
  /\ valid_string (player_name p)
  /\ valid (c_score L) (score p)
  /\ valid (c_duration L) (duration p).

Fixpoint encode_players (ps : list PlayerRecord) : bytes :=
  match ps with
  | [] => []
  | p :: ps' => encode_player p ++ encode_players ps'
  end.

Fixpoint decode_players (n : nat) (bs : bytes) : Decoded (list PlayerRecord) :=
  match n with
  | O => Parsed [] bs
  | S k =>
      andThen (decode_player bs) (fun p bs =>
      andThen (decode_players k bs) (fun ps bs => Parsed (p :: ps) bs))
  end.

Definition encode_player_body (ps : list PlayerRecord) : bytes :=
  encode (c_count L) (Z.of_nat (List.length ps)) ++ encode_players ps.

Definition decodePlayerBody (bs : bytes) : Decoded (list PlayerRecord) :=
  andThen (decode (c_count L) bs) (fun n bs =>
    if n <? 0 then MalformedFrame else decode_players (Z.to_nat n) bs).

Definition valid_players (ps : list PlayerRecord) : Prop :=
  valid (c_count L) (Z.of_nat (List.length ps)) /\ Forall valid_player ps.

(** Modelled from the spec: a single-packet frame is the marker, the type
    marker and the body. *)
Definition encode_info_frame (x : InfoRecord) : bytes :=
  single_packet_marker ++ opcode_byte L OpInfo :: encode_info_body x.

Definition encode_player_frame (ps : list PlayerRecord) : bytes :=
  single_packet_marker ++ opcode_byte L OpPlayers :: encode_player_body ps.

(** Modelled from the spec: the type marker a byte stands for, if any. *)
Definition decode_opcode (b : byte) : option Opcode :=
  if Byte.eqb b (opcode_byte L OpChallenge) then Some OpChallenge
  else if Byte.eqb b (opcode_byte L OpInfo) then Some OpInfo
  else if Byte.eqb b (opcode_byte L OpPlayers) then Some OpPlayers
  else None.

(** Modelled from the spec: [decodeResponseHeader] and the decode of the
    body it announces.  A buffer shorter than the marker and the type
    marker, or with a marker it does not know, is a [MalformedFrame]. *)
Definition decode_frame (bs : bytes) : Decoded Response :=
  if (List.length bs <? 5)%nat then MalformedFrame
  else
    let marker := firstn 4 bs in
    let body := skipn 4 bs in
    if bytes_eqb marker split_packet_marker then Parsed (SplitFragment body) []
    else if bytes_eqb marker single_packet_marker then
      match body with
      | [] => MalformedFrame
      | b :: bs =>
          match decode_opcode b with
          | Some OpChallenge =>
              andThen (decode (c_challenge L) bs) (fun c bs =>
                Parsed (ChallengeRequired c) bs)
          | Some OpInfo =>
              andThen (decodeInfoBody bs) (fun x bs =>
                Parsed (InfoResponse x) bs)
          | Some OpPlayers =>
              andThen (decodePlayerBody bs) (fun ps bs =>
                Parsed (PlayerResponse ps) bs)
          | None => MalformedFrame
          end
      end
    else MalformedFrame.

(** *** The round trip of each piece *)

Lemma decode_string_encode (s : string) (rest : bytes) :
  valid_string s -> decode_string (encode_string s ++ rest) = Parsed s rest.
Proof.
  intros Hv. unfold decode_string, encode_string.
  rewrite <- app_assoc, (decode_encode (c_length L)) by exact Hv.
  cbn [andThen]. rewrite Nat2Z.id.
  replace (Z.of_nat (List.length (list_byte_of_string s)) <? 0) with false
    by (symmetry; apply Z.ltb_ge; lia).
  replace (Z.of_nat (List.length (list_byte_of_string s ++ rest))
           <? Z.of_nat (List.length (list_byte_of_string s))) with false
    by (symmetry; apply Z.ltb_ge; rewrite length_app; lia).
  cbn [orb]. rewrite firstn_app, Nat.sub_diag, firstn_all, firstn_O, app_nil_r.
  rewrite skipn_app, Nat.sub_diag, skipn_all, skipn_O.
  now rewrite string_of_list_byte_of_string.
Qed.

(* Reads the next field off an encoding laid out field after field. *)
Ltac next_field :=
  rewrite <- ?app_assoc;
  first [ rewrite decode_string_encode by assumption
        | rewrite decode_encode by assumption ];
  cbn [andThen].

Lemma decode_extended_encode (e : ExtendedBlock) (rest : bytes) :
  valid_extended e ->
  decode_extended (encode_extended e ++ rest) = Parsed e rest.
Proof.
  intros (H1 & H2 & H3 & H4 & H5 & H6).
  unfold decode_extended, encode_extended. do 6 next_field.
  now destruct e.
Qed.

Lemma decodeInfoBody_encode (x : InfoRecord) (rest : bytes) :
  valid_info x ->
  decodeInfoBody (encode_info_body x ++ rest) = Parsed x rest.
Proof.
  intros (H1 & H2 & H3 & H4 & H5 & H6 & H7 & H8 & H9 & H10 & H11 & H12
          & H13 & H14).
  unfold decodeInfoBody, encode_info_body. do 12 next_field.
  destruct x as [ver name map folder game cur max bots ty o vis vac [e|]];
    cbn [extended] in *.
  - next_field. rewrite <- ?app_assoc.
    rewrite decode_extended_encode by exact H14. reflexivity.
  - next_field. reflexivity.
Qed.

Lemma decode_player_encode (p : PlayerRecord) (rest : bytes) :
  valid_player p -> decode_player (encode_player p ++ rest) = Parsed p rest.
Proof.
  intros (H1 & H2 & H3 & H4). unfold decode_player, encode_player.
  do 4 next_field. now destruct p.
Qed.

Lemma decode_players_encode (ps : list PlayerRecord) (rest : bytes) :
  Forall valid_player ps ->
  decode_players (List.length ps) (encode_players ps ++ rest)
  = Parsed ps rest.
Proof.
  induction 1 as [|p ps Hp _ IH]; cbn [decode_players encode_players
                                        List.length].
  - reflexivity.
  - rewrite <- app_assoc, decode_player_encode by exact Hp. cbn [andThen].
    now rewrite IH.
Qed.

Lemma decodePlayerBody_encode (ps : list PlayerRecord) (rest : bytes) :
  valid_players ps ->
  decodePlayerBody (encode_player_body ps ++ rest) = Parsed ps rest.
Proof.
  intros [Hn Hps]. unfold decodePlayerBody, encode_player_body.
  next_field.
  replace (Z.of_nat (List.length ps) <? 0) with false
    by (symmetry; apply Z.ltb_ge; lia).
  rewrite Nat2Z.id. now apply decode_players_encode.
Qed.

Lemma decode_opcode_byte (op : Opcode) :
  decode_opcode (opcode_byte L op) = Some op.
Proof.
  assert (Hrefl : forall b, Byte.eqb b b = true)
    by (intros b; now apply Byte.byte_dec_lb).
  unfold decode_opcode.
  destruct op; rewrite ?Hrefl; try reflexivity.
  - destruct (Byte.eqb (opcode_byte L OpInfo) (opcode_byte L OpChallenge))
      eqn:E; [|reflexivity].
    apply Byte.byte_dec_bl, opcode_byte_inj in E. discriminate.
  - destruct (Byte.eqb (opcode_byte L OpPlayers) (opcode_byte L OpChallenge))
      eqn:E1.
    { apply Byte.byte_dec_bl, opcode_byte_inj in E1. discriminate. }
    destruct (Byte.eqb (opcode_byte L OpPlayers) (opcode_byte L OpInfo))
      eqn:E2; [|reflexivity].
    apply Byte.byte_dec_bl, opcode_byte_inj in E2. discriminate.
Qed.

Lemma decode_info_frame (x : InfoRecord) :
  valid_info x ->
  decode_frame (encode_info_frame x) = Parsed (InfoResponse x) [].
Proof.
  intros Hv. unfold decode_frame, encode_info_frame.
  cbn [single_packet_marker app List.length Nat.ltb Nat.leb firstn skipn].
  cbn [bytes_eqb split_packet_marker single_packet_marker Byte.eqb andb].
  rewrite decode_opcode_byte.
  rewrite <- (app_nil_r (encode_info_body x)).
  now rewrite decodeInfoBody_encode.
Qed.

Lemma decode_player_frame (ps : list PlayerRecord) :
  valid_players ps ->
  decode_frame (encode_player_frame ps) = Parsed (PlayerResponse ps) [].
Proof.
  intros Hv. unfold decode_frame, encode_player_frame.
  cbn [single_packet_marker app List.length Nat.ltb Nat.leb firstn skipn].
  cbn [bytes_eqb split_packet_marker single_packet_marker Byte.eqb andb].
  rewrite decode_opcode_byte.
  rewrite <- (app_nil_r (encode_player_body ps)).
  now rewrite decodePlayerBody_encode.
Qed.

End WithLayout.

(** *** A layout *)

Definition byte_of_Z (z : Z) : byte :=
  match Byte.of_N (Z.to_N z) with
  | Some b => b
  | None => x00
  end.

Definition Z_of_byte (b : byte) : Z := Z.of_N (Byte.to_N b).

Lemma Z_of_byte_of_Z (z : Z) : 0 <= z < 256 -> Z_of_byte (byte_of_Z z) = z.
Proof.
  intros Hz. unfold Z_of_byte, byte_of_Z.
  destruct (Byte.of_N (Z.to_N z)) as [b|] eqn:E.
  - apply Byte.to_of_N in E. rewrite E. lia.
  - apply Byte.of_N_None_iff in E. lia.
Qed.

(** An unsigned number on [n] bytes, the low byte first. *)
Fixpoint encode_le (n : nat) (z : Z) : bytes :=
  match n with
  | O => []
  | S k => byte_of_Z (z mod 256) :: encode_le k (z / 256)
  end.

Fixpoint decode_le (n : nat) (bs : bytes) : Decoded Z :=
  match n with
  | O => Parsed 0 bs
  | S k =>
      match bs with
      | [] => MalformedFrame
      | b :: bs' =>
          andThen (decode_le k bs') (fun v rest =>
            Parsed (Z_of_byte b + 256 * v) rest)
      end
  end.

Lemma decode_le_encode (n : nat) :
  forall z rest, 0 <= z < 256 ^ Z.of_nat n ->
    decode_le n (encode_le n z ++ rest) = Parsed z rest.
Proof.
  induction n as [|k IH]; intros z rest Hz.
  - cbn in *. f_equal. lia.
  - cbn [encode_le decode_le app].
    rewrite Nat2Z.inj_succ, Z.pow_succ_r in Hz by lia.
    rewrite IH.
    + cbn [andThen]. rewrite Z_of_byte_of_Z by (apply Z.mod_pos_bound; lia).
      f_equal. rewrite Z.add_comm. symmetry. apply Z.div_mod. lia.
    + split; [apply Z.div_pos; lia | apply Z.div_lt_upper_bound; lia].
Qed.

Definition uint (n : nat) : Codec Z :=
  {| encode := encode_le n;
     decode := decode_le n;
     valid := fun z => 0 <= z < 256 ^ Z.of_nat n;
     decode_encode := decode_le_encode n |}.

(** A value that stands on one byte; a byte that stands for no value is a
    [MalformedFrame]. *)
Definition decode_one {A : Type} (from : byte -> option A) (bs : bytes)
  : Decoded A :=
  match bs with
  | [] => MalformedFrame
  | b :: rest =>
      match from b with
      | Some a => Parsed a rest
      | None => MalformedFrame
      end
  end.

Lemma decode_one_encode {A : Type} (to : A -> byte) (from : byte -> option A) :
  (forall a, from (to a) = Some a) ->
  forall a rest, True -> decode_one from ([to a] ++ rest) = Parsed a rest.
Proof. intros H a rest _. cbn. now rewrite H. Qed.

Definition one_byte {A : Type} (to : A -> byte) (from : byte -> option A)
           (H : forall a, from (to a) = Some a) : Codec A :=
  {| encode := fun a => [to a];
     decode := decode_one from;
     valid := fun _ => True;
     decode_encode := decode_one_encode to from H |}.

Definition server_type_byte (t : ServerType) : byte :=
  match t with dedicated => x64 | listen => x6c | proxy => x70 end.
Definition server_type_of_byte (b : byte) : option ServerType :=
  match b with
  | x64 => Some dedicated | x6c => Some listen | x70 => Some proxy
  | _ => None
  end.

Definition os_byte (o : OS) : byte :=
  match o with linux => x6c | windows => x77 | mac => x6d end.
Definition os_of_byte (b : byte) : option OS :=
  match b with
  | x6c => Some linux | x77 => Some windows | x6d => Some mac
  | _ => None
  end.

Definition visibility_byte (v : Visibility) : byte :=
  match v with public => x00 | private => x01 end.
Definition visibility_of_byte (b : byte) : option Visibility :=
  match b with x00 => Some public | x01 => Some private | _ => None end.

Definition flag_byte (f : bool) : byte := if f then x01 else x00.
Definition flag_of_byte (b : byte) : option bool :=
  match b with x00 => Some false | x01 => Some true | _ => None end.

Definition sample_opcode_byte (op : Opcode) : byte :=
  match op with OpChallenge => x41 | OpInfo => x49 | OpPlayers => x44 end.

Lemma sample_opcode_byte_inj (a b : Opcode) :
  sample_opcode_byte a = sample_opcode_byte b -> a = b.
Proof. destruct a, b; cbn; intros H; try reflexivity; discriminate. Qed.

Lemma server_type_of_byte_ok t : server_type_of_byte (server_type_byte t) = Some t.
Proof. now destruct t. Qed.
Lemma os_of_byte_ok o : os_of_byte (os_byte o) = Some o.
Proof. now destruct o. Qed.
Lemma visibility_of_byte_ok v : visibility_of_byte (visibility_byte v) = Some v.
Proof. now destruct v. Qed.
Lemma flag_of_byte_ok f : flag_of_byte (flag_byte f) = Some f.
Proof. now destruct f. Qed.

(** One byte for a count, a version, a length and an enumeration value;
    two for a port, four for a challenge, an application id, a score and a
    duration, eight for an identity. *)
Definition sample_layout : Layout :=
  {| opcode_byte := sample_opcode_byte;
     opcode_byte_inj := sample_opcode_byte_inj;
     c_challenge := uint 4;
     c_version := uint 1;
     c_count := uint 1;
     c_length := uint 1;
     c_server_type := one_byte server_type_byte server_type_of_byte
                        server_type_of_byte_ok;
     c_os := one_byte os_byte os_of_byte os_of_byte_ok;
     c_visibility := one_byte visibility_byte visibility_of_byte
                       visibility_of_byte_ok;
     c_flag := one_byte flag_byte flag_of_byte flag_of_byte_ok;
     c_app_id := uint 4;
     c_port := uint 2;
     c_identity := uint 8;
     c_score := uint 4;
     c_duration := uint 4 |}.

Definition sample_record : InfoRecord :=
  {| protocol_version := 17; display_name := "Arma 3"; map_name := "Tanoa";
     content_folder := "Arma3"; game_description := "End Game";
     current_players := 2; maximum_players := 28; bot_players := 0;
     server_type := dedicated; os := windows; visibility := public;
     anti_cheat := false;
     extended := Some {| application_id := 107410;
                         game_version := "1.90.145471"; query_port := 2402;
                         identity_id := 90124885451686921;
                         game_mode := "bt,r190"; game_id := "107410" |} |}.

Definition sample_roster : list PlayerRecord :=
  [ {| player_index := 0; player_name := "Smith"; score := 4294967291;
       duration := 2401 |};
    {| player_index := 1; player_name := "jonas"; score := 87;
       duration := 2358 |} ].

End WireCodec.

(* ================================================================== *)
(** ** Properties of the fault-containment policy *)
(* ================================================================== *)

Module ValveSpec.
Import Valve.

(** The error the spec promises for a panic value: the value itself when
    it is an error, otherwise an error whose text is the value formatted. *)
Definition error_of_panic (r : PanicValue) : GoError :=
  match r with
  | PError e => e
  | _ => ErrorString (fmt_v r)
  end.

(** What comes back for a panic that was caught: that error, or [nil]
    when the panic carried [nil]. *)
Definition caught (r : PanicValue) : error :=
  match r with
  | PNil => None
  | _ => Some (error_of_panic r)
  end.

(** A decoder that runs off the end of a four-byte datagram. *)
Definition index_out_of_range : GoError :=
  RuntimeError "runtime error: index out of range [5] with length 4".

Definition short_datagram : Func unit := fun s =>
  (Panics (PError index_out_of_range), s).

(** A query that throws the timeout of its socket as a panic. *)
Definition thrown_timeout : Func unit := fun s =>
  (Panics (PError (KindError TimeoutError "i/o timeout")), s).

(** A function that calls [panic(nil)]. *)
Definition nil_panic : Func unit := fun s => (Panics PNil, s).

(** A function that panics with a value that is no error. *)
Definition bad_opcode : Func nat := fun s =>
  (Panics (PInt 77), S s).

(** A function that returns normally, with an error of its own. *)
Definition timed_out : Func nat := fun s =>
  (Returns (Some (KindError TimeoutError "i/o timeout")), S s).

Section Facts.

Variable State : Type.
Implicit Types (fn : Func State) (s : State) (r : PanicValue).

Lemma tryAndCatch_returns fn s s' (e : error) :
  fn s = (Returns e, s') -> tryAndCatch fn s = (Returns e, s').
Proof. unfold tryAndCatch. intros ->. reflexivity. Qed.

Lemma tryAndCatch_panics fn s s' r :
  fn s = (Panics r, s') ->
  tryAndCatch fn s = (Returns (caught r), s').
Proof. unfold tryAndCatch. intros ->. destruct r; reflexivity. Qed.

Lemma caught_not_nil r : r <> PNil -> caught r = Some (error_of_panic r).
Proof. destruct r; [congruence | reflexivity..]. Qed.

(** Whatever [fn] does, [tryAndCatch fn] returns: no panic leaves it. *)
Lemma tryAndCatch_never_panics fn s :
  exists e, fst (tryAndCatch fn s) = Returns e.
Proof.
  destruct (fn s) as [[e | r] s'] eqn:E.
  - exists e. now rewrite (tryAndCatch_returns _ _ _ _ E).
  - exists (caught r).
    now rewrite (tryAndCatch_panics _ _ _ _ E).
Qed.

(** The state [fn] leaves is the state the policy leaves. *)
Lemma tryAndCatch_state fn s : snd (tryAndCatch fn s) = snd (fn s).
Proof. unfold tryAndCatch. destruct (fn s) as [o s']. reflexivity. Qed.

(** C1, as the code has it. Under the default policy (the package
    variable [Try], which starts as [tryAndCatch]): when [fn] returns,
    [Try(fn)] returns the result of [fn]; when [fn] panics with a value
    [r] that is not [nil], [Try(fn)] returns an ordinary error, [r] itself
    if [r] is an error and otherwise the error whose text is [r] formatted;
    when [fn] panics with [nil] the panic is stopped as well and [Try(fn)]
    returns [nil].  No panic goes on.  The policy is one variable, and
    once [tryNoCatch] is assigned to it [Try(fn)] is [fn()], panic
    included. *)
Theorem Try_default_contains_faults fn s :
  @Try State init = @tryAndCatch State
  /\ (forall e s', fn s = (Returns e, s') ->
        Try init fn s = (Returns e, s'))
  /\ (forall r s', fn s = (Panics r, s') -> r <> PNil ->
        Try init fn s = (Returns (Some (error_of_panic r)), s')
        /\ (forall e, r = PError e -> error_of_panic r = e)
        /\ ((forall e, r <> PError e) ->
              error_of_panic r = ErrorString (fmt_v r)))
  /\ (forall s', fn s = (Panics PNil, s') ->
        Try init fn s = (Returns None, s'))
  /\ (exists e, fst (Try init fn s) = Returns e)
  /\ Try (set_Try tryNoCatch init) fn s = fn s.
Proof.
  split; [reflexivity|]. split; [|split; [|split; [|split]]].
  - intros e s' E. now apply tryAndCatch_returns.
  - intros r s' E Hr. split.
    + cbn [Try init]. rewrite (tryAndCatch_panics _ _ _ _ E).
      now rewrite caught_not_nil.
    + split.
      * intros e ->. reflexivity.
      * intros H. destruct r as [|e| |]; try reflexivity.
        now destruct (H e).
  - intros s' E. cbn [Try init]. now rewrite (tryAndCatch_panics _ _ _ _ E).
  - apply tryAndCatch_never_panics.
  - reflexivity.
Qed.

(** C10. On a function that returns without panicking the two policies
    agree and both give the result of [fn]; they differ exactly on the
    functions that panic. *)
Theorem policies_agree_without_panic fn s :
  (forall e s', fn s = (Returns e, s') ->
     tryAndCatch fn s = fn s /\ tryNoCatch fn s = fn s
     /\ tryAndCatch fn s = tryNoCatch fn s)
  /\ (forall r s', fn s = (Panics r, s') ->
        tryAndCatch fn s <> tryNoCatch fn s)
  /\ (tryAndCatch fn s <> tryNoCatch fn s ->
        exists r, fst (fn s) = Panics r).
Proof.
  split; [|split].
  - intros e s' E. rewrite (tryAndCatch_returns _ _ _ _ E).
    unfold tryNoCatch. rewrite E. repeat split.
  - intros r s' E. rewrite (tryAndCatch_panics _ _ _ _ E).
    unfold tryNoCatch. rewrite E. discriminate.
  - intros D. destruct (fn s) as [[e | r] s'] eqn:E.
    + exfalso. apply D. rewrite (tryAndCatch_returns _ _ _ _ E).
      unfold tryNoCatch. now rewrite E.
    + now exists r.
Qed.

(** C4, as the code has it. A panic of [fn] is caught by the default
    policy.  When its value is not [nil] it comes back as an ordinary
    error that is the panic value itself, or its text: the kind of an error
    that was thrown is the kind that comes back, and a value that is no
    error comes back with no kind at all; nothing is made a
    [MalformedFrame].  When its value is [nil] what comes back is [nil], no
    error at all.  Under [tryNoCatch] the panic goes on. *)
Theorem panic_becomes_the_error_it_carries fn s s' r :
  fn s = (Panics r, s') ->
  Try init fn s = (Returns (caught r), s')
  /\ (r <> PNil ->
      caught r = Some (error_of_panic r)
      /\ kind_of (error_of_panic r)
         = match r with PError e => kind_of e | _ => None end
      /\ Error (error_of_panic r) = fmt_v r)
  /\ (r = PNil -> caught r = None)
  /\ Try (set_Try tryNoCatch init) fn s = (Panics r, s').
Proof.
  intros E. split; [now apply tryAndCatch_panics|]. split; [|split].
  - intros Hr. split; [now apply caught_not_nil|].
    split; now destruct r.
  - intros ->. reflexivity.
  - exact E.
Qed.

End Facts.

(** [panic(nil)] under the default policy: [Try] returns [nil], which is
    no error. *)
Lemma nil_panic_comes_back_as_nil :
  nil_panic tt = (Panics PNil, tt)
  /\ Try init nil_panic tt = (Returns None, tt).
Proof. split; reflexivity. Qed.

(** The fault of a decoder that reads past its datagram comes back as the
    very run-time error that was thrown, unchanged, which has no kind, so
    not [MalformedFrame]; an error of another kind that is thrown comes
    back with that kind; and a panic that carries [nil] comes back as no
    error at all. *)
Lemma runtime_fault_is_not_MalformedFrame :
  short_datagram tt = (Panics (PError index_out_of_range), tt)
  /\ Try init short_datagram tt = (Returns (Some index_out_of_range), tt)
  /\ kind_of index_out_of_range <> Some MalformedFrame
  /\ Try init thrown_timeout tt
     = (Returns (Some (KindError TimeoutError "i/o timeout")), tt)
  /\ kind_of (KindError TimeoutError "i/o timeout") = Some TimeoutError
  /\ Try init (fun s : unit => (Panics PNil, s)) tt = (Returns None, tt).
Proof. repeat split. discriminate. Qed.

Lemma panic_becomes_the_error_it_carries_witness :
  Try init bad_opcode 0%nat = (Returns (Some (ErrorString "77")), 1%nat)
  /\ kind_of (ErrorString "77") = None.
Proof.
  destruct (panic_becomes_the_error_it_carries nat bad_opcode 0%nat 1%nat
              (PInt 77) eq_refl) as (H1 & H2 & _).
  split; [exact H1|].
  assert (Hr : PInt 77 <> PNil) by discriminate.
  exact (proj1 (proj2 (H2 Hr))).
Defined.

End ValveSpec.

(* ================================================================== *)
(** ** Properties of the orchestration *)
(* ================================================================== *)

Module MastersteamSpec.
Import Mastersteam.

Lemma append_assoc (a b c : string) : (a ++ b) ++ c = a ++ (b ++ c).
Proof. induction a as [|x a IH]; simpl; [reflexivity | now rewrite IH]. Qed.

Lemma append_nil_r (a : string) : a ++ EmptyString = a.
Proof. induction a as [|x a IH]; simpl; [reflexivity | now rewrite IH]. Qed.

(** Reduces the projections of a [World] written out as a record. *)
Ltac proj :=
  cbn [sOutputBuffer sNumServers master bp_queue sched trace
       with_buffer with_count with_master with_queue with_sched with_trace
       Valve.hostAndPort] in *.

(** Runs the monad's plumbing, leaving strings and lists as they are. *)
Ltac step :=
  repeat (progress (unfold bind, ret, gets, modify, emit, panic,
                      WriteString, Reset in *;
                    cbv beta iota in *; cbn [negb] in *; proj)).

(** *** A sample deployment

    Three servers behind a directory: the first answers with no players and
    a visibility byte of 2, the second has three players and lets the
    player query time out, the third cannot be reached. *)

Definition server1 : string := "10.0.0.1:27015".
Definition server2 : string := "10.0.0.2:27015".
Definition server3 : string := "10.0.0.3:27015".

Definition sample_info (players visibility : Z) : Valve.ServerInfo :=
  {| Valve.Protocol := 17; Valve.Name := "Arma 3"; Valve.MapName := "Tanoa";
     Valve.Folder := "Arma3"; Valve.Game := "End Game";
     Valve.Players := players; Valve.MaxPlayers := 28; Valve.Bots := 0;
     Valve.Type_ := 100; Valve.OS := 119; Valve.Vac := 0;
     Valve.Visibility := visibility; Valve.Ext := None |}.

Definition timeout_error : Valve.GoError :=
  Valve.KindError Valve.TimeoutError "i/o timeout".

(** A stand-in for [json.Marshal] that prints the fields the examples look
    at; it accepts every object. *)
Definition sample_marshal (obj : JObj string) : string + Valve.GoError :=
  inl match obj with
      | JError e => "{ip:" ++ IP e ++ ",error:" ++ Error e ++ "}"
      | JServer so =>
          "{ip:" ++ Address so ++ ",players:" ++ fmt_d (Players so)
          ++ ",visibility:" ++ Visibility so
          ++ match PlayersOnline so with
             | Some l => ",players_online:" ++ String.concat "," l
             | None => EmptyString
             end
          ++ "}"
      end.

Definition sample_env : Env string :=
  {| ServerType_String := fun b => if b =? 100 then "dedicated" else "unknown";
     ServerOS_String := fun b => if b =? 119 then "windows" else "unknown";
     json_Marshal := sample_marshal;
     json_Indent := fun buf => buf;
     net_dial := fun addr =>
       if String.eqb addr server3 then Some timeout_error else None;
     net_info := fun addr =>
       if String.eqb addr server1 then inl (sample_info 0 2)
       else if String.eqb addr server2 then inl (sample_info 3 0)
       else inr (Valve.ErrorString "connection refused");
     net_players := fun addr => inr timeout_error |}.

Definition sample_master : Valve.MasterServerQuerier :=
  {| Valve.pages := [[server1; server2]; [server3]];
     Valve.failure := None |}.

Definition failing_master : Valve.MasterServerQuerier :=
  {| Valve.pages := [[server1; server2]];
     Valve.failure :=
       Some (Valve.KindError Valve.DirectoryError "master: read timeout") |}.

(** A fresh process whose pool gets through one task while the first page
    is handed over. *)
Definition sample_world : World :=
  {| sOutputBuffer := EmptyString; sNumServers := 0;
     master := sample_master; bp_queue := []; sched := [1%nat];
     trace := [] |}.

Section Facts.

Context {Player : Type}.
Variable env : Env Player.

(** The outcome of one address, in the words of the spec (section 3,
    QueryOutcome): the info record with the roster when there is one, or
    an error descriptor keyed by the address. *)
Definition outcome (addr : string) : JObj Player :=
  match net_dial env addr with
  | Some err => JError {| IP := addr; Error := Valve.Error err |}
  | None =>
      match net_info env addr with
      | inr err => JError {| IP := addr; Error := Valve.Error err |}
      | inl info =>
          let out := build_out env addr info in
          JServer
            (if 0 <? Valve.Players info
             then match net_players env addr with
                  | inr _ => set_PlayersOnline None out
                  | inl players => set_PlayersOnline players out
                  end
             else out)
      end
  end.

(** The calls one task makes, in order. *)
Definition task_events (timeout : Z) (addr : string) : list Event :=
  NewServerQuerier_call addr timeout ::
  match net_dial env addr with
  | Some _ => []
  | None =>
      QueryInfo_call addr ::
      match net_info env addr with
      | inr _ => []
      | inl info =>
          log_Printf (addr ++ " - " ++ Valve.Name info ++ LF) ::
          (if 0 <? Valve.Players info then [QueryPlayers_call addr] else [])
      end ++ [Close_call addr]
  end.

(** The text of one entry of ["data"]: a comma unless it is the first,
    the key, the indented JSON. *)
Definition entry_text (n : Z) (addr : string) (buf : string) : string :=
  (if n =? 0 then EmptyString else ",")
  ++ LF ++ TAB ++ QUOTE ++ addr ++ QUOTE ++ ": " ++ json_Indent env buf.

(** The world after an entry is appended to the sink. *)
Definition after_entry (addr buf : string) (w : World) : World :=
  with_count (wrap64 (sNumServers w + 1))
    (with_buffer (sOutputBuffer w ++ entry_text (sNumServers w) addr buf) w).

Definition logged (evs : list Event) (w : World) : World :=
  with_trace (trace w ++ evs) w.

(** [w'] is [w] with one more entry in the sink, for [obj] under [addr]. *)
Definition appends_entry (w w' : World) (addr : string) (obj : JObj Player)
  : Prop :=
  exists buf,
    json_Marshal env obj = inl buf
    /\ sOutputBuffer w'
       = sOutputBuffer w ++ entry_text (sNumServers w) addr buf
    /\ sNumServers w' = wrap64 (sNumServers w + 1).

(* Two worlds written out field by field, equal up to the bracketing of
   the trace. *)
Ltac world_eq :=
  step;
  repeat (progress (unfold after_entry, with_trace, with_count, with_buffer;
                    proj));
  repeat rewrite <- app_assoc; cbn [app]; reflexivity.

Lemma addJSON_spec (addr : string) (obj : JObj Player) (w : World) :
  addJSON env addr obj w
  = match json_Marshal env obj with
    | inl buf => Ok tt (after_entry addr buf w)
    | inr err => Panic (Valve.PError err) w
    end.
Proof.
  unfold addJSON. destruct (json_Marshal env obj) as [buf | err];
    [|reflexivity].
  unfold after_entry, entry_text.
  destruct (sNumServers w =? 0) eqn:E; step; rewrite ?E; step;
    rewrite ?append_assoc; reflexivity.
Qed.

Lemma callback_spec (timeout : Z) (addr : string) (w : World) :
  callback env timeout addr w
  = match json_Marshal env (outcome addr) with
    | inl buf =>
        Ok tt (logged (task_events timeout addr) (after_entry addr buf w))
    | inr err =>
        Panic (Valve.PError err) (logged (task_events timeout addr) w)
    end.
Proof.
  unfold callback, outcome, task_events, TCPAddr_String, addError,
    NewServerQuerier, QueryInfo, QueryPlayers, Close, defer, logged.
  step.
  destruct (net_dial env addr) as [err|]; step.
  { rewrite addJSON_spec. destruct (json_Marshal env _); reflexivity. }
  destruct (net_info env addr) as [info | err]; step.
  2:{ rewrite addJSON_spec. destruct (json_Marshal env _); world_eq. }
  destruct (0 <? Valve.Players info); step;
    [destruct (net_players env addr) as [players | err]; step|];
    rewrite addJSON_spec; destruct (json_Marshal env _); world_eq.
Qed.

(** *** A run of tasks *)

(** The timeout every task of [newServerQuerier] is given. *)
Definition flagTimeout : Z := Second * 3.

(** The JSON of the outcome of an address (empty when [json.Marshal]
    refuses it: a task then panics and writes nothing). *)
Definition outcome_json (addr : string) : string :=
  match json_Marshal env (outcome addr) with
  | inl buf => buf
  | inr _ => EmptyString
  end.

(** The entries of ["data"] for the addresses [l], one per address and in
    their order, when [n] entries stand before them. *)
Fixpoint entries_text (n : Z) (l : list TCPAddr) : string :=
  match l with
  | [] => EmptyString
  | addr :: l' =>
      entry_text n addr (outcome_json addr) ++ entries_text (n + 1) l'
  end.

(** [json.Marshal] accepts the outcome of every address of [l]. *)
Definition marshals (l : list TCPAddr) : Prop :=
  forall addr, In addr l ->
    exists buf, json_Marshal env (outcome addr) = inl buf.

(** The world after the tasks of [l] have run, one after the other. *)
Definition ran (l : list TCPAddr) (w : World) : World :=
  {| sOutputBuffer := sOutputBuffer w ++ entries_text (sNumServers w) l;
     sNumServers := sNumServers w + Z.of_nat (List.length l);
     master := master w;
     bp_queue := bp_queue w;
     sched := sched w;
     trace := trace w ++ flat_map (task_events flagTimeout) l |}.

Lemma world_ext (w w' : World) :
  sOutputBuffer w = sOutputBuffer w' -> sNumServers w = sNumServers w' ->
  master w = master w' -> bp_queue w = bp_queue w' ->
  sched w = sched w' -> trace w = trace w' -> w = w'.
Proof. destruct w, w'; cbn; intros; subst; reflexivity. Qed.

Lemma wrap64_small (n : Z) :
  - 2 ^ 63 <= n < 2 ^ 63 -> wrap64 n = n.
Proof. intros H. unfold wrap64. rewrite Z.mod_small; lia. Qed.

Lemma entries_text_app (l1 l2 : list TCPAddr) (n : Z) :
  entries_text n (l1 ++ l2)
  = entries_text n l1 ++ entries_text (n + Z.of_nat (List.length l1)) l2.
Proof.
  revert n. induction l1 as [|a l1 IH]; intros n; cbn [app entries_text].
  - cbn. now rewrite Z.add_0_r.
  - rewrite IH, append_assoc. do 3 f_equal. cbn [List.length]. lia.
Qed.

Lemma marshals_app (l1 l2 : list TCPAddr) :
  marshals (l1 ++ l2) <-> marshals l1 /\ marshals l2.
Proof.
  unfold marshals. split.
  - intros H. split; intros a Ha; apply H, in_or_app; auto.
  - intros [H1 H2] a Ha. apply in_app_or in Ha. destruct Ha; auto.
Qed.

(** One task: the callback appends the entry of its address. *)
Lemma callback_ran (addr : string) (w : World) :
  marshals [addr] ->
  - 2 ^ 63 <= sNumServers w + 1 < 2 ^ 63 ->
  callback env flagTimeout addr w = Ok tt (ran [addr] w).
Proof.
  intros Hm Hn. rewrite callback_spec.
  destruct (Hm addr (or_introl eq_refl)) as [buf Hbuf].
  unfold ran. cbn [entries_text flat_map List.length].
  unfold outcome_json. rewrite Hbuf. f_equal. apply world_ext; unfold logged, after_entry; proj.
  - now rewrite append_nil_r.
  - rewrite wrap64_small by exact Hn. lia.
  - reflexivity.
  - reflexivity.
  - reflexivity.
  - now rewrite app_nil_r.
Qed.

(** The workers get through the first [k] queued tasks. *)
Lemma work_ran (k : nat) (w : World) :
  marshals (bp_queue w) ->
  0 <= sNumServers w ->
  sNumServers w + Z.of_nat (List.length (bp_queue w)) < 2 ^ 63 ->
  work (callback env flagTimeout) k w
  = Ok tt (ran (firstn k (bp_queue w))
             (with_queue (skipn k (bp_queue w)) w)).
Proof.
  revert w. induction k as [|k IH]; intros w Hm H0 Hn.
  - cbn [work firstn skipn]. unfold ret. f_equal.
    apply world_ext; unfold ran; proj; cbn [entries_text flat_map List.length];
      rewrite ?append_nil_r, ?app_nil_r; try reflexivity; lia.
  - cbn [work]. destruct (bp_queue w) as [|a q] eqn:Eq.
    + cbn [firstn skipn]. f_equal.
      apply world_ext; unfold ran; proj;
        cbn [entries_text flat_map List.length];
        rewrite ?append_nil_r, ?app_nil_r; auto; lia.
    + cbn [List.length] in Hn.
      change (a :: q) with ([a] ++ q)%list in Hm.
      apply marshals_app in Hm. destruct Hm as [Ha Hq].
      unfold bind. rewrite callback_ran; [|exact Ha|proj; lia].
      rewrite IH.
      * unfold ran; proj. cbn [firstn skipn entries_text flat_map List.length].
        f_equal. apply world_ext; proj; try reflexivity.
        -- rewrite append_nil_r, append_assoc. reflexivity.
        -- lia.
        -- rewrite app_nil_r, <- app_assoc. reflexivity.
      * unfold ran; proj. exact Hq.
      * unfold ran; proj. cbn [List.length]. lia.
      * unfold ran; proj. cbn [List.length]. lia.
Qed.

(** *** The enumeration feeding the pool *)

(** The batch processor [newServerQuerier] makes. *)
Definition the_bp : BatchProcessor :=
  {| bp_callback := callback env flagTimeout; bp_width := 20 |}.

(** The callback [newServerQuerier] gives [master.Query]. *)
Definition onBatch (servers : list TCPAddr) : M Valve.error :=
  AddBatch the_bp servers ;; ret None.

(** A run under way: [all] are the addresses submitted so far; some are
    done, in the order they were submitted, and the others are queued.
    The sink holds the entries of those done, the counter counts them,
    and the events since [t0] are theirs. *)
Definition running (t0 : list Event) (all : list TCPAddr) (w : World)
  : Prop :=
  exists done,
    all = (done ++ bp_queue w)%list
    /\ sOutputBuffer w = header ++ entries_text 0 done
    /\ sNumServers w = Z.of_nat (List.length done)
    /\ trace w = (t0 ++ flat_map (task_events flagTimeout) done)%list.

Lemma AddBatch_running (t0 : list Event) (all servers : list TCPAddr)
      (w : World) :
  running t0 all w ->
  marshals (all ++ servers) ->
  Z.of_nat (List.length (all ++ servers)) < 2 ^ 63 ->
  exists w',
    AddBatch the_bp servers w = Ok tt w'
    /\ running t0 (all ++ servers) w'
    /\ master w' = master w.
Proof.
  intros (done & Hall & Hbuf & Hcnt & Htr) Hm Hn.
  unfold AddBatch, next_sched. step.
  set (q := (bp_queue w ++ servers)%list).
  assert (Eall : (all ++ servers)%list = (done ++ q)%list).
  { subst q. rewrite Hall, <- app_assoc. reflexivity. }
  rewrite Eall in Hm, Hn. apply marshals_app in Hm. destruct Hm as [_ Hq].
  rewrite length_app, Nat2Z.inj_add in Hn.
  assert (Hrun : forall k s,
    exists w', work (callback env flagTimeout) k
                 (with_sched s (with_queue q w)) = Ok tt w'
               /\ running t0 (all ++ servers) w' /\ master w' = master w).
  { intros k s. rewrite work_ran; proj; [|exact Hq|lia|lia].
    eexists. split; [reflexivity|]. split; [|reflexivity].
    exists (done ++ firstn k q)%list. unfold ran; proj.
    rewrite Eall, <- app_assoc, firstn_skipn, Hbuf, Hcnt, Htr.
    rewrite entries_text_app, append_assoc, length_app, Nat2Z.inj_add.
    rewrite flat_map_app, <- app_assoc. cbn [Z.add]. repeat split. }
  destruct (sched w) as [|k s] eqn:Es.
  - destruct (Hrun O (sched w)) as (w' & Hw & Hr & Hma).
    exists w'. split; [|now split].
    exact Hw.
  - exact (Hrun k s).
Qed.

Lemma Query_pages_running (ps : list (list TCPAddr)) (fail : Valve.error) :
  forall (t0 : list Event) (all : list TCPAddr) (w : World),
    running t0 all w ->
    marshals (all ++ List.concat ps) ->
    Z.of_nat (List.length (all ++ List.concat ps)) < 2 ^ 63 ->
    exists w',
      Query_pages ps fail onBatch w = Ok fail w'
      /\ running t0 (all ++ List.concat ps) w'
      /\ master w' = master w.
Proof.
  induction ps as [|servers ps IH]; intros t0 all w Hr Hm Hn.
  - cbn [Query_pages List.concat]. rewrite app_nil_r. exists w. now repeat split.
  - cbn [Query_pages List.concat] in *. rewrite app_assoc in Hm, Hn.
    assert (Hm' := Hm). apply marshals_app in Hm'. destruct Hm' as [Hm1 _].
    assert (Hn1 : Z.of_nat (List.length (all ++ servers)) < 2 ^ 63).
    { rewrite length_app in Hn. lia. }
    destruct (AddBatch_running t0 all servers w Hr Hm1 Hn1)
      as (w1 & Hw1 & Hr1 & Hma1).
    destruct (IH t0 (all ++ servers)%list w1 Hr1 Hm Hn)
      as (w2 & Hw2 & Hr2 & Hma2).
    exists w2. unfold onBatch at 1. unfold bind at 1 2. rewrite Hw1.
    unfold ret. rewrite Hw2, app_assoc. repeat split; congruence.
Qed.

(** *** [newServerQuerier], piece by piece *)

(** The world when the enumeration starts: counter and queue reset, the
    top of the envelope written. *)
Definition started (w : World) : World :=
  with_buffer header (with_queue [] (with_count 0 w)).

(** Lines 221-224. *)
Definition on_error (err : Valve.error) : M unit :=
  match err with
  | Some e =>
      emit (log_Printf ("Could not query the master: "
                        ++ Valve.Error e ++ LF)) ;;
      exit 1
  | None => ret tt
  end.

(** Lines 227-235. *)
Definition finish_and_close : M unit :=
  Finish the_bp ;;
  WriteString ("}]," ++ LF) ;;
  n <- gets sNumServers ;;
  WriteString (TAB ++ QUOTE ++ "total" ++ QUOTE ++ ":" ++ fmt_d n ++ LF) ;;
  WriteString ("}" ++ LF).

Lemma newServerQuerier_unfold (w : World) :
  newServerQuerier env w
  = defer (Terminate the_bp)
      (err <- Query_pages (Valve.pages (master w)) (Valve.failure (master w))
                onBatch ;;
       on_error err ;; finish_and_close)
      (started w).
Proof. reflexivity. Qed.

Lemma started_running (w : World) : running (trace w) [] (started w).
Proof.
  exists []. unfold started; proj. cbn [entries_text flat_map List.length app].
  rewrite append_nil_r, app_nil_r. repeat split.
Qed.

Lemma finish_and_close_spec (t0 : list Event) (all : list TCPAddr)
      (w : World) :
  running t0 all w -> marshals all ->
  Z.of_nat (List.length all) < 2 ^ 63 ->
  exists w',
    finish_and_close w = Ok tt w'
    /\ sOutputBuffer w'
       = header ++ entries_text 0 all ++ footer (Z.of_nat (List.length all))
    /\ sNumServers w' = Z.of_nat (List.length all)
    /\ bp_queue w' = [].
Proof.
  intros (done & Hall & Hbuf & Hcnt & Htr) Hm Hn.
  rewrite Hall in Hm, Hn. apply marshals_app in Hm. destruct Hm as [_ Hq].
  rewrite length_app, Nat2Z.inj_add in Hn.
  unfold finish_and_close, Finish. unfold bind at 1 2 3. unfold emit at 1.
  unfold modify at 1. unfold gets at 1. proj.
  rewrite work_ran; proj; [|exact Hq|lia|lia].
  rewrite firstn_all, skipn_all. step. eexists. split; [reflexivity|].
  unfold ran; proj. rewrite Hall, Hbuf, Hcnt, entries_text_app, length_app,
    Nat2Z.inj_add.
  cbn [Z.add]. unfold footer. rewrite !append_assoc. repeat split.
Qed.

Lemma newServerQuerier_completes (w : World) :
  Valve.failure (master w) = None ->
  marshals (List.concat (Valve.pages (master w))) ->
  Z.of_nat (List.length (List.concat (Valve.pages (master w)))) < 2 ^ 63 ->
  exists w',
    newServerQuerier env w = Ok tt w'
    /\ sOutputBuffer w'
       = header ++ entries_text 0 (List.concat (Valve.pages (master w)))
         ++ footer (Z.of_nat
                      (List.length (List.concat (Valve.pages (master w)))))
    /\ sNumServers w'
       = Z.of_nat (List.length (List.concat (Valve.pages (master w)))).
Proof.
  intros Hf Hm Hn. rewrite newServerQuerier_unfold, Hf.
  destruct (Query_pages_running (Valve.pages (master w)) None (trace w) []
              (started w) (started_running w) Hm Hn)
    as (w1 & Hw1 & Hr1 & _).
  cbn [app] in Hr1.
  destruct (finish_and_close_spec _ _ w1 Hr1 Hm Hn)
    as (w2 & Hw2 & Hbuf & Hcnt & _).
  unfold defer, bind at 1 2. rewrite Hw1. unfold on_error, ret.
  rewrite Hw2. unfold Terminate. step. eexists. split; [reflexivity|].
  proj. split; assumption.
Qed.

Lemma newServerQuerier_exits (w : World) (e : Valve.GoError) :
  Valve.failure (master w) = Some e ->
  marshals (List.concat (Valve.pages (master w))) ->
  Z.of_nat (List.length (List.concat (Valve.pages (master w)))) < 2 ^ 63 ->
  exists done w',
    List.concat (Valve.pages (master w)) = (done ++ bp_queue w')%list
    /\ newServerQuerier env w = Exit 1 w'
    /\ sOutputBuffer w' = header ++ entries_text 0 done
    /\ sNumServers w' = Z.of_nat (List.length done)
    /\ trace w'
       = (trace w ++ flat_map (task_events flagTimeout) done
          ++ [log_Printf ("Could not query the master: "
                          ++ Valve.Error e ++ LF);
              os_Exit 1])%list.
Proof.
  intros Hf Hm Hn. rewrite newServerQuerier_unfold, Hf.
  destruct (Query_pages_running (Valve.pages (master w)) (Some e) (trace w)
              [] (started w) (started_running w) Hm Hn)
    as (w1 & Hw1 & (done & Hall & Hbuf & Hcnt & Htr) & _).
  cbn [app] in Hall.
  unfold defer, bind at 1 2. rewrite Hw1. unfold on_error, exit. step.
  exists done. eexists. split; [|split; [reflexivity|]]; proj.
  - exact Hall.
  - rewrite Htr, <- !app_assoc. cbn [app]. repeat split; assumption.
Qed.

(** *** Player queries over a whole run *)

(** If a player query went to [x] so far, the querier of [x] opened and
    its info record counts more than zero players. *)
Definition guarded (x : string) (w : World) : Prop :=
  In (QueryPlayers_call x) (trace w) ->
  net_dial env x = None
  /\ exists info, net_info env x = inl info /\ 0 < Valve.Players info.

(** A piece of the program that keeps [guarded], however it ends. *)
Definition keeps_guarded {A : Type} (m : M A) : Prop :=
  forall x w, guarded x w -> guarded x (world_of (m w)).

Lemma keeps_ret {A : Type} (a : A) : keeps_guarded (ret a).
Proof. intros x w H. exact H. Qed.

Lemma keeps_bind {A B : Type} (m : M A) (f : A -> M B) :
  keeps_guarded m -> (forall a, keeps_guarded (f a)) ->
  keeps_guarded (bind m f).
Proof.
  intros Hm Hf x w H. unfold bind. specialize (Hm x w H).
  destruct (m w) as [a w' | r w' | c w']; cbn [world_of] in *;
    [now apply Hf | exact Hm | exact Hm].
Qed.

Lemma keeps_defer {A : Type} (cleanup : M unit) (body : M A) :
  keeps_guarded cleanup -> keeps_guarded body ->
  keeps_guarded (defer cleanup body).
Proof.
  intros Hc Hb x w H. unfold defer. specialize (Hb x w H).
  destruct (body w) as [a w' | r w' | c w']; cbn [world_of] in *;
    [| |exact Hb]; specialize (Hc x w' Hb);
    destruct (cleanup w'); exact Hc.
Qed.

Lemma keeps_modify (f : World -> World) :
  (forall w, trace (f w) = trace w) -> keeps_guarded (modify f).
Proof.
  intros Hf x w H Hin. unfold modify in Hin. cbn [world_of] in Hin.
  rewrite Hf in Hin. now apply H.
Qed.

Lemma keeps_gets {A : Type} (f : World -> A) : keeps_guarded (gets f).
Proof. intros x w H. exact H. Qed.

Lemma keeps_emit (e : Event) :
  (forall x, e <> QueryPlayers_call x) -> keeps_guarded (emit e).
Proof.
  intros He x w H Hin. unfold emit, modify in Hin.
  cbn [world_of] in Hin. proj. apply in_app_or in Hin.
  destruct Hin as [Hin | [Hin | []]]; [now apply H | now destruct (He x)].
Qed.

Lemma keeps_callback (timeout : Z) (addr : string) :
  keeps_guarded (callback env timeout addr).
Proof.
  intros x w H Hin.
  assert (Htr : trace (world_of (callback env timeout addr w))
                = (trace w ++ task_events timeout addr)%list).
  { rewrite callback_spec. destruct (json_Marshal env (outcome addr));
      unfold world_of, logged, after_entry; proj; reflexivity. }
  rewrite Htr in Hin. apply in_app_or in Hin.
  destruct Hin as [Hin | Hin]; [now apply H|].
  unfold task_events in Hin.
  destruct (net_dial env addr) as [err|] eqn:Ed.
  { destruct Hin as [Hin | []]. discriminate. }
  destruct (net_info env addr) as [info | err] eqn:Ei.
  2:{ cbn in Hin. destruct Hin as [Hin|[Hin|[Hin|[]]]]; discriminate. }
  destruct (0 <? Valve.Players info) eqn:Ep; cbn in Hin.
  - destruct Hin as [Hin|[Hin|[Hin|[Hin|[Hin|[]]]]]]; try discriminate.
    injection Hin as <-. split; [exact Ed|]. exists info.
    split; [exact Ei | now apply Z.ltb_lt].
  - destruct Hin as [Hin|[Hin|[Hin|[Hin|[]]]]]; discriminate.
Qed.

Lemma keeps_work (cb : TCPAddr -> M unit) (n : nat) :
  (forall a, keeps_guarded (cb a)) -> keeps_guarded (work cb n).
Proof.
  intros Hcb. induction n as [|k IH]; intros x w H; cbn [work].
  - exact H.
  - destruct (bp_queue w) as [|a q]; [exact H|].
    apply (keeps_bind (cb a) (fun _ => work cb k)); [apply Hcb | auto |].
    exact H.
Qed.

Lemma keeps_AddBatch (bp : BatchProcessor) (servers : list TCPAddr) :
  (forall a, keeps_guarded (bp_callback bp a)) ->
  keeps_guarded (AddBatch bp servers).
Proof.
  intros Hcb. unfold AddBatch.
  apply keeps_bind; [now apply keeps_modify|]. intros _.
  apply keeps_bind.
  - intros x w H. unfold next_sched. destruct (sched w); exact H.
  - intros k. now apply keeps_work.
Qed.

Lemma keeps_Query_pages (ps : list (list TCPAddr)) (fail : Valve.error)
      (ob : list TCPAddr -> M Valve.error) :
  (forall servers, keeps_guarded (ob servers)) ->
  keeps_guarded (Query_pages ps fail ob).
Proof.
  intros Hob. induction ps as [|servers ps IH]; cbn [Query_pages].
  - apply keeps_ret.
  - apply keeps_bind; [apply Hob|]. intros [e|]; [apply keeps_ret | exact IH].
Qed.

Lemma keeps_Finish : keeps_guarded (Finish the_bp).
Proof.
  unfold Finish. apply keeps_bind; [apply keeps_emit; discriminate|].
  intros _. apply keeps_bind; [apply keeps_gets|]. intros q.
  apply keeps_work. intros a. apply keeps_callback.
Qed.

Lemma keeps_newServerQuerier : keeps_guarded (newServerQuerier env).
Proof.
  intros x w H. rewrite newServerQuerier_unfold.
  assert (Hs : guarded x (started w)) by exact H. clear H. revert Hs.
  generalize (started w). revert x. apply keeps_defer.
  { unfold Terminate. apply keeps_bind; [apply keeps_emit; discriminate|].
    intros _. now apply keeps_modify. }
  apply keeps_bind.
  { apply keeps_Query_pages. intros servers. unfold onBatch.
    apply keeps_bind; [|intros _; apply keeps_ret].
    apply keeps_AddBatch. intros a. apply keeps_callback. }
  intros err. apply keeps_bind.
  { unfold on_error. destruct err as [e|]; [|apply keeps_ret].
    apply keeps_bind; [apply keeps_emit; discriminate|]. intros _.
    intros y w1 H1 Hin. unfold exit in Hin. cbn [world_of] in Hin. proj.
    apply in_app_or in Hin. destruct Hin as [Hin | [Hin | []]];
      [now apply H1 | discriminate]. }
  intros _. unfold finish_and_close.
  apply keeps_bind; [apply keeps_Finish|]. intros _.
  unfold WriteString.
  apply keeps_bind; [now apply keeps_modify|]. intros _.
  apply keeps_bind; [apply keeps_gets|]. intros n.
  apply keeps_bind; [now apply keeps_modify|]. intros _.
  now apply keeps_modify.
Qed.

Lemma keeps_httpServer (m : Valve.MasterServerQuerier) :
  keeps_guarded (httpServer env m).
Proof.
  unfold httpServer. apply keeps_bind; [now apply keeps_modify|]. intros _.
  apply keeps_bind; [apply keeps_newServerQuerier|]. intros _.
  apply keeps_bind; [apply keeps_gets|]. intros body. apply keeps_ret.
Qed.

(** *** The claims about the orchestration *)

(** When no two callbacks overlap: each run of the callback on an address
    appends exactly one entry to the output, the server record or the
    error object of that address, and counts it.  So a run whose
    enumeration succeeds, and whose callbacks run one after the other,
    ends with one entry per submitted address and an envelope whose
    ["total"] is their number, which is also the counter.  [json.Marshal]
    is taken to accept every outcome (a refusal makes [addJSON] panic) and
    the addresses to be fewer than [2^63], the range of the counter. *)
Theorem one_outcome_per_address :
  (forall timeout addr w,
     marshals [addr] ->
     exists w',
       callback env timeout addr w = Ok tt w'
       /\ appends_entry w w' addr (outcome addr))
  /\ (forall m w,
        Valve.failure m = None ->
        marshals (List.concat (Valve.pages m)) ->
        Z.of_nat (List.length (List.concat (Valve.pages m))) < 2 ^ 63 ->
        exists w',
          httpServer env m w
          = Ok {| ContentType := "application/json; charset=UTF-8";
                  Body := header
                          ++ entries_text 0 (List.concat (Valve.pages m))
                          ++ footer (Z.of_nat
                                       (List.length
                                          (List.concat (Valve.pages m))))
               |} w'
          /\ sNumServers w'
             = Z.of_nat (List.length (List.concat (Valve.pages m)))).
Proof.
  split.
  - intros timeout addr w Hm.
    destruct (Hm addr (or_introl eq_refl)) as [buf Hbuf].
    rewrite callback_spec, Hbuf. eexists. split; [reflexivity|].
    exists buf. unfold logged, after_entry; proj. repeat split. exact Hbuf.
  - intros m w Hf Hm Hn.
    destruct (newServerQuerier_completes (with_master m w) Hf Hm Hn)
      as (w' & Hw & Hbuf & Hcnt).
    proj. exists w'. unfold httpServer, bind at 1 2, modify.
    rewrite Hw. step. rewrite Hbuf. split; [reflexivity | exact Hcnt].
Qed.

(** C3. The events of one task are those of [task_events], and a player
    query is among them exactly when the querier opened, the info query
    succeeded and the info record counts more than zero players: for an
    address that reports zero players no player query is issued. *)
Theorem player_query_only_with_players
        (timeout : Z) (addr : string) (w : World) :
  trace (world_of (callback env timeout addr w))
  = (trace w ++ task_events timeout addr)%list
  /\ (forall x,
        In (QueryPlayers_call x) (task_events timeout addr)
        <-> x = addr
            /\ net_dial env addr = None
            /\ exists info,
                 net_info env addr = inl info /\ 0 < Valve.Players info)
  /\ (forall info,
        net_info env addr = inl info -> Valve.Players info = 0 ->
        ~ In (QueryPlayers_call addr) (task_events timeout addr))
  /\ (forall m w0 info,
        net_info env addr = inl info -> Valve.Players info = 0 ->
        ~ In (QueryPlayers_call addr) (trace w0) ->
        ~ In (QueryPlayers_call addr) (trace (world_of (httpServer env m w0)))).
Proof.
  assert (Hiff : forall x,
        In (QueryPlayers_call x) (task_events timeout addr)
        <-> x = addr
            /\ net_dial env addr = None
            /\ exists info,
                 net_info env addr = inl info /\ 0 < Valve.Players info).
  { intros x. unfold task_events.
    destruct (net_dial env addr) as [err|].
    { cbn. split; [intros [H|[]]; discriminate | intros (_ & H & _);
                                                 discriminate]. }
    destruct (net_info env addr) as [info | err].
    2:{ cbn. split.
        - intros [H|[H|[H|[]]]]; discriminate.
        - intros (_ & _ & info & H & _). discriminate. }
    destruct (0 <? Valve.Players info) eqn:Ep; cbn.
    - apply Z.ltb_lt in Ep. split.
      + intros [H|[H|[H|[H|[H|[]]]]]]; try discriminate.
        injection H as <-. repeat split. now exists info.
      + intros (-> & _). auto.
    - apply Z.ltb_ge in Ep. split.
      + intros [H|[H|[H|[H|[]]]]]; discriminate.
      + intros (_ & _ & info' & H & Hp). injection H as <-. lia. }
  split; [|split; [exact Hiff|split]].
  - rewrite callback_spec. destruct (json_Marshal env (outcome addr));
      unfold world_of, logged, after_entry; proj; reflexivity.
  - intros info Hi Hp Hin. apply Hiff in Hin.
    destruct Hin as (_ & _ & info' & Hi' & Hp').
    rewrite Hi in Hi'. injection Hi' as <-. lia.
  - intros m w0 info Hi Hp Hnot Hin.
    assert (Hg : guarded addr w0) by (intros H; now destruct (Hnot H)).
    destruct (keeps_httpServer m addr w0 Hg Hin) as (_ & info' & Hi' & Hp').
    rewrite Hi in Hi'. injection Hi' as <-. lia.
Qed.

(** C5, as the code has it. When the enumeration fails with a directory
    error the run ends there, for the whole process: it logs the error and
    exits with status 1.  The handler writes no response; the sink holds the
    top of the envelope and the entries of the tasks that were done by
    then, and no entry for the directory error; the tasks still queued
    end with the process, unrun; nothing happens after the exit (neither
    [Finish] nor the deferred [Terminate]). *)
Theorem directory_error_ends_the_run
        (m : Valve.MasterServerQuerier) (e : Valve.GoError) (w : World) :
  Valve.failure m = Some e ->
  marshals (List.concat (Valve.pages m)) ->
  Z.of_nat (List.length (List.concat (Valve.pages m))) < 2 ^ 63 ->
  exists done w',
    httpServer env m w = Exit 1 w'
    /\ List.concat (Valve.pages m) = (done ++ bp_queue w')%list
    /\ sOutputBuffer w' = header ++ entries_text 0 done
    /\ sNumServers w' = Z.of_nat (List.length done)
    /\ trace w'
       = (trace w ++ flat_map (task_events flagTimeout) done
          ++ [log_Printf ("Could not query the master: "
                          ++ Valve.Error e ++ LF);
              os_Exit 1])%list
    /\ ~ In Finish_call (flat_map (task_events flagTimeout) done)
    /\ ~ In Terminate_call (flat_map (task_events flagTimeout) done).
Proof.
  intros Hf Hm Hn.
  destruct (newServerQuerier_exits (with_master m w) e Hf Hm Hn)
    as (done & w' & Hall & Hw & Hbuf & Hcnt & Htr).
  proj. exists done, w'. unfold httpServer, bind at 1 2, modify.
  rewrite Hw. split; [reflexivity|]. repeat (split; [assumption|]).
  assert (Hno : forall ev,
             In ev (flat_map (task_events flagTimeout) done) ->
             ev <> Finish_call /\ ev <> Terminate_call).
  { intros ev Hin. apply in_flat_map in Hin. destruct Hin as (a & _ & Hin).
    unfold task_events in Hin.
    destruct (net_dial env a);
      [|destruct (net_info env a) as [info|];
        [destruct (0 <? Valve.Players info)|]];
      cbn in Hin;
      repeat (destruct Hin as [<- | Hin]; [split; discriminate|]);
      destruct Hin. }
  split; intros Hin; apply Hno in Hin; destruct Hin; congruence.
Qed.

(** C6, as the code has it. For every info record the callback decodes no
    field: the server-type and OS texts are what their [String()] methods
    give, and the visibility byte is rendered ["public"] when it is 0 and
    ["private"] for every other value; the address is reported with its
    server record and no error arises from these fields. *)
Theorem visibility_is_public_or_private
        (timeout : Z) (addr : string) (info : Valve.ServerInfo) (w : World) :
  net_dial env addr = None ->
  net_info env addr = inl info ->
  exists so,
    outcome addr = JServer so
    /\ Visibility so
       = (if Valve.Visibility info =? 0 then "public" else "private")
    /\ Type_ so = ServerType_String env (Valve.Type_ info)
    /\ Os so = ServerOS_String env (Valve.OS info)
    /\ callback env timeout addr w
       = match json_Marshal env (JServer so) with
         | inl buf =>
             Ok tt (logged (task_events timeout addr)
                      (after_entry addr buf w))
         | inr err =>
             Panic (Valve.PError err) (logged (task_events timeout addr) w)
         end.
Proof.
  intros Hd Hi. eexists. split; [|split; [|split; [|split]]].
  - unfold outcome. rewrite Hd, Hi. reflexivity.
  - unfold build_out.
    destruct (0 <? Valve.Players info);
      [destruct (net_players env addr)|];
      destruct (Valve.Ext info); destruct (Valve.Visibility info =? 0);
      reflexivity.
  - unfold build_out.
    destruct (0 <? Valve.Players info);
      [destruct (net_players env addr)|];
      destruct (Valve.Ext info); destruct (Valve.Visibility info =? 0);
      destruct (Valve.Vac info =? 1); reflexivity.
  - unfold build_out.
    destruct (0 <? Valve.Players info);
      [destruct (net_players env addr)|];
      destruct (Valve.Ext info); destruct (Valve.Visibility info =? 0);
      destruct (Valve.Vac info =? 1); reflexivity.
  - rewrite callback_spec. unfold outcome. rewrite Hd, Hi. reflexivity.
Qed.

(** C7, as the code has it. When the querier of an address cannot be
    opened, or its info query returns an error, the one entry the callback
    appends for the address is the error object: the address under ["ip"]
    and the text of the error under ["error"], keyed by the address.  (A
    player query that fails makes no error object.) *)
Theorem failed_query_yields_error_object
        (timeout : Z) (addr : string) (err : Valve.GoError) (buf : string)
        (w : World) :
  net_dial env addr = Some err
  \/ (net_dial env addr = None /\ net_info env addr = inr err) ->
  json_Marshal env (JError {| IP := addr; Error := Valve.Error err |})
  = inl buf ->
  outcome addr = JError {| IP := addr; Error := Valve.Error err |}
  /\ exists w',
       callback env timeout addr w = Ok tt w'
       /\ appends_entry w w' addr
            (JError {| IP := addr; Error := Valve.Error err |})
       /\ sOutputBuffer w'
          = sOutputBuffer w ++ entry_text (sNumServers w) addr buf.
Proof.
  intros Hfail Hbuf.
  assert (Ho : outcome addr
               = JError {| IP := addr; Error := Valve.Error err |}).
  { unfold outcome. destruct Hfail as [-> | [-> ->]]; reflexivity. }
  split; [exact Ho|].
  rewrite callback_spec, Ho, Hbuf. eexists. split; [reflexivity|].
  unfold appends_entry, logged, after_entry; proj. split; [|reflexivity].
  exists buf. repeat split. exact Hbuf.
Qed.

(** C9. When the info query succeeds with players to ask for and the
    player query then returns an error, the address is reported with its
    server record, [PlayersOnline] left [nil]; the error of the player
    query goes nowhere, and the one entry appended is no error object. *)
Theorem player_query_error_is_dropped
        (timeout : Z) (addr : string) (info : Valve.ServerInfo)
        (err : Valve.GoError) (buf : string) (w : World) :
  net_dial env addr = None ->
  net_info env addr = inl info ->
  0 < Valve.Players info ->
  net_players env addr = inr err ->
  json_Marshal env
    (JServer (set_PlayersOnline None (build_out env addr info))) = inl buf ->
  PlayersOnline (set_PlayersOnline None (build_out env addr info)) = None
  /\ In (QueryPlayers_call addr) (task_events timeout addr)
  /\ exists w',
       callback env timeout addr w = Ok tt w'
       /\ appends_entry w w' addr
            (JServer (set_PlayersOnline None (build_out env addr info)))
       /\ sOutputBuffer w'
          = sOutputBuffer w ++ entry_text (sNumServers w) addr buf.
Proof.
  intros Hd Hi Hp He Hbuf. apply Z.ltb_lt in Hp.
  assert (Ho : outcome addr
               = JServer (set_PlayersOnline None (build_out env addr info))).
  { unfold outcome. rewrite Hd, Hi, Hp, He. reflexivity. }
  split; [reflexivity|]. split.
  { unfold task_events. rewrite Hd, Hi, Hp. cbn. auto. }
  rewrite callback_spec, Ho, Hbuf. eexists. split; [reflexivity|].
  unfold appends_entry, logged, after_entry; proj. split; [|reflexivity].
  exists buf. repeat split. exact Hbuf.
Qed.

End Facts.

(** *** The claims on the sample deployment *)

Lemma sample_marshals (l : list TCPAddr) : marshals sample_env l.
Proof. intros addr _. eexists. reflexivity. Qed.

Lemma one_outcome_per_address_witness :
  exists w',
    httpServer sample_env sample_master sample_world
    = Ok {| ContentType := "application/json; charset=UTF-8";
            Body := header
                    ++ entries_text sample_env 0 [server1; server2; server3]
                    ++ footer 3 |} w'
    /\ sNumServers w' = 3.
Proof.
  exact (proj2 (one_outcome_per_address sample_env) sample_master sample_world
           eq_refl (sample_marshals _) eq_refl).
Defined.

Lemma directory_error_ends_the_run_witness :
  exists done w',
    httpServer sample_env failing_master sample_world = Exit 1 w'
    /\ [server1; server2] = (done ++ bp_queue w')%list
    /\ sOutputBuffer w' = header ++ entries_text sample_env 0 done
    /\ sNumServers w' = Z.of_nat (List.length done)
    /\ trace w'
       = (flat_map (task_events sample_env flagTimeout) done
          ++ [log_Printf ("Could not query the master: "
                          ++ "master: read timeout" ++ LF);
              os_Exit 1])%list
    /\ ~ In Finish_call (flat_map (task_events sample_env flagTimeout) done)
    /\ ~ In Terminate_call
         (flat_map (task_events sample_env flagTimeout) done).
Proof.
  exact (directory_error_ends_the_run sample_env failing_master
           (Valve.KindError Valve.DirectoryError "master: read timeout")
           sample_world eq_refl (sample_marshals _) eq_refl).
Defined.

(** The directory fails after its first page, one task done and one still
    queued: the process exits with the second task unrun and its address
    still in the queue; [Finish] was not called, nor [Terminate], and the
    handler returns no response. *)
Lemma directory_error_neither_drains_nor_terminates :
  exists w',
    Mastersteam.httpServer sample_env failing_master sample_world = Exit 1 w'
    /\ bp_queue w' = [server2]
    /\ ~ In Finish_call (trace w')
    /\ ~ In Terminate_call (trace w')
    /\ ~ In (NewServerQuerier_call server2 flagTimeout) (trace w')
    /\ trace w'
       = [NewServerQuerier_call server1 3000000000;
          QueryInfo_call server1;
          log_Printf (server1 ++ " - Arma 3" ++ LF);
          Close_call server1;
          log_Printf ("Could not query the master: master: read timeout"
                      ++ LF);
          os_Exit 1].
Proof.
  eexists. split; [reflexivity|]. split; [reflexivity|].
  repeat split; try reflexivity; intros H; cbn in H;
    repeat (destruct H as [H | H]; [discriminate|]); exact H.
Qed.

(** The second server answers the info query with three players and lets
    the player query fail: its entry is the server record, not an error
    object. *)
Lemma failed_player_query_yields_server_record :
  net_dial sample_env server2 = None
  /\ net_info sample_env server2 = inl (sample_info 3 0)
  /\ net_players sample_env server2 = inr timeout_error
  /\ outcome sample_env server2
     <> JError {| IP := server2; Error := Valve.Error timeout_error |}
  /\ exists w',
       callback sample_env flagTimeout server2 sample_world = Ok tt w'
       /\ sNumServers w' = 1
       /\ sOutputBuffer w'
          = LF ++ TAB ++ QUOTE ++ server2 ++ QUOTE ++ ": "
            ++ "{ip:10.0.0.2:27015,players:3,visibility:public}".
Proof.
  repeat (split; [reflexivity|]). split; [discriminate|].
  eexists. repeat split.
Qed.

(** The first server sends a visibility byte that is neither 0 nor 1; its
    record goes out all the same, with ["private"]. *)
Lemma unrecognized_visibility_is_reported_private :
  net_info sample_env server1 = inl (sample_info 0 2)
  /\ Valve.Visibility (sample_info 0 2) = 2
  /\ Visibility (build_out sample_env server1 (sample_info 0 2)) = "private"
  /\ outcome sample_env server1
     = JServer (build_out sample_env server1 (sample_info 0 2))
  /\ exists w',
       callback sample_env flagTimeout server1 sample_world = Ok tt w'
       /\ sNumServers w' = 1
       /\ sOutputBuffer w'
          = LF ++ TAB ++ QUOTE ++ server1 ++ QUOTE ++ ": "
            ++ "{ip:10.0.0.1:27015,players:0,visibility:private}".
Proof.
  repeat (split; [reflexivity|]). eexists. repeat split.
Qed.

Lemma visibility_is_public_or_private_witness :
  exists so,
    outcome sample_env server2 = JServer so
    /\ Visibility so = "public"
    /\ Type_ so = "dedicated"
    /\ Os so = "windows"
    /\ callback sample_env flagTimeout server2 sample_world
       = match sample_marshal (JServer so) with
         | inl buf =>
             Ok tt (logged (task_events sample_env flagTimeout server2)
                      (after_entry sample_env server2 buf sample_world))
         | inr err =>
             Panic (Valve.PError err)
               (logged (task_events sample_env flagTimeout server2)
                  sample_world)
         end.
Proof.
  exact (visibility_is_public_or_private sample_env flagTimeout server2
           (sample_info 3 0) sample_world eq_refl eq_refl).
Defined.

Lemma failed_query_yields_error_object_witness :
  outcome sample_env server3
  = JError {| IP := server3; Error := "i/o timeout" |}
  /\ exists w',
       callback sample_env flagTimeout server3 sample_world = Ok tt w'
       /\ appends_entry sample_env sample_world w' server3
            (JError {| IP := server3; Error := "i/o timeout" |})
       /\ sOutputBuffer w'
          = EmptyString
            ++ entry_text sample_env 0 server3
                 "{ip:10.0.0.3:27015,error:i/o timeout}".
Proof.
  exact (failed_query_yields_error_object sample_env flagTimeout server3
           timeout_error "{ip:10.0.0.3:27015,error:i/o timeout}" sample_world
           (or_introl eq_refl) eq_refl).
Defined.

Lemma player_query_error_is_dropped_witness :
  PlayersOnline
    (set_PlayersOnline None (build_out sample_env server2 (sample_info 3 0)))
  = None
  /\ In (QueryPlayers_call server2) (task_events sample_env flagTimeout server2)
  /\ exists w',
       callback sample_env flagTimeout server2 sample_world = Ok tt w'
       /\ appends_entry sample_env sample_world w' server2
            (JServer (set_PlayersOnline None
                        (build_out sample_env server2 (sample_info 3 0))))
       /\ sOutputBuffer w'
          = EmptyString
            ++ entry_text sample_env 0 server2
                 "{ip:10.0.0.2:27015,players:3,visibility:public}".
Proof.
  exact (player_query_error_is_dropped sample_env flagTimeout server2
           (sample_info 3 0) timeout_error
           "{ip:10.0.0.2:27015,players:3,visibility:public}" sample_world
           eq_refl eq_refl eq_refl eq_refl eq_refl).
Defined.

End MastersteamSpec.

(* ================================================================== *)
(** ** The round trip of a single-packet frame *)
(* ================================================================== *)

Module WireCodecSpec.
Import WireCodec.

(** C8. Whatever the layout, a valid info record or player roster encoded
    as one single-packet frame decodes to that very record or roster, with
    every field as it was and no byte left over. *)
Theorem frame_round_trip (L : Layout) :
  (forall x, valid_info L x ->
     decode_frame L (encode_info_frame L x) = Parsed (InfoResponse x) [])
  /\ (forall ps, valid_players L ps ->
        decode_frame L (encode_player_frame L ps)
        = Parsed (PlayerResponse ps) []).
Proof.
  split.
  - intros x Hv. now apply decode_info_frame.
  - intros ps Hv. now apply decode_player_frame.
Qed.

Lemma sample_record_valid : valid_info sample_layout sample_record.
Proof. unfold valid_info, valid_extended, valid_string. cbn. repeat split; lia. Qed.

Lemma sample_roster_valid : valid_players sample_layout sample_roster.
Proof.
  split; [cbn; lia|].
  repeat constructor; unfold valid_string; cbn; lia.
Qed.

Lemma frame_round_trip_witness :
  decode_frame sample_layout (encode_info_frame sample_layout sample_record)
  = Parsed (InfoResponse sample_record) []
  /\ decode_frame sample_layout
       (encode_player_frame sample_layout sample_roster)
     = Parsed (PlayerResponse sample_roster) [].
Proof.
  split.
  - exact (proj1 (frame_round_trip sample_layout) sample_record
             sample_record_valid).
  - exact (proj2 (frame_round_trip sample_layout) sample_roster
             sample_roster_valid).
Defined.

(** The sample frame starts with the marker, the type marker of an info
    response and the protocol version; cut short, it is malformed. *)
Example sample_frame_head :
  firstn 8 (encode_info_frame sample_layout sample_record)
  = [xff; xff; xff; xff; x49; x11; x06; x41].
Proof. reflexivity. Qed.

Example truncated_frame_is_malformed :
  decode_frame sample_layout
    (firstn 20 (encode_info_frame sample_layout sample_record))
  = MalformedFrame.
Proof. vm_compute. reflexivity. Qed.

End WireCodecSpec.

(* ================================================================== *)
(** ** More on the fault-containment policy *)
(* ================================================================== *)

Module ValveExtra.
Import Valve.

Section Facts.

Variable State : Type.
Implicit Types (fn : Func State) (s : State).

(** X1. Wrapping twice is wrapping once: [tryAndCatch] applied to a
    function already under [tryAndCatch] gives the same result and state,
    and [tryNoCatch] inside or outside [tryAndCatch] changes nothing. *)
Theorem tryAndCatch_nested fn s :
  tryAndCatch (tryAndCatch fn) s = tryAndCatch fn s
  /\ tryAndCatch (tryNoCatch fn) s = tryAndCatch fn s
  /\ tryNoCatch (tryAndCatch fn) s = tryAndCatch fn s.
Proof.
  split; [|split; reflexivity].
  destruct (fn s) as [[e | r] s'] eqn:E.
  - rewrite (ValveSpec.tryAndCatch_returns _ (tryAndCatch fn) s s' e);
      now rewrite (ValveSpec.tryAndCatch_returns _ fn s s' e E).
  - rewrite (ValveSpec.tryAndCatch_panics _ fn s s' r E).
    apply ValveSpec.tryAndCatch_returns.
    now apply ValveSpec.tryAndCatch_panics.
Qed.

(** X2. [tryAndCatch(fn)] is [nil] exactly when [fn] returned [nil] or
    panicked with [nil]: an error [fn] returns is never lost, and a panic
    with any other value comes back as an error. *)
Theorem tryAndCatch_nil_iff fn s s' :
  tryAndCatch fn s = (Returns None, s')
  <-> fn s = (Returns None, s') \/ fn s = (Panics PNil, s').
Proof.
  split.
  - intros H. destruct (fn s) as [[e | r] s1] eqn:E.
    + rewrite (ValveSpec.tryAndCatch_returns _ fn s s1 e E) in H.
      left. now injection H as -> ->.
    + rewrite (ValveSpec.tryAndCatch_panics _ fn s s1 r E) in H.
      right. destruct r; [now injection H as ->|discriminate..].
  - intros [E | E].
    + now apply ValveSpec.tryAndCatch_returns.
    + now rewrite (ValveSpec.tryAndCatch_panics _ fn s s' PNil E).
Qed.

End Facts.

End ValveExtra.

(* ================================================================== *)
(** ** More on the orchestration *)
(* ================================================================== *)

Module MastersteamExtra.
Import Mastersteam MastersteamSpec.

(** A deployment whose second server answers the player query. *)
Definition roster_env : Env string :=
  {| ServerType_String := ServerType_String sample_env;
     ServerOS_String := ServerOS_String sample_env;
     json_Marshal := sample_marshal;
     json_Indent := json_Indent sample_env;
     net_dial := net_dial sample_env;
     net_info := net_info sample_env;
     net_players := fun addr => inl (Some ["Smith"; "jonas"]) |}.

Section Facts.

Context {Player : Type}.
Variable env : Env Player.

Lemma callback_trace (timeout : Z) (addr : string) (w : World) :
  trace (world_of (callback env timeout addr w))
  = (trace w ++ task_events env timeout addr)%list.
Proof.
  rewrite callback_spec. destruct (json_Marshal env (outcome env addr));
    unfold world_of, logged, after_entry; proj; reflexivity.
Qed.

(** X3. A querier that was opened is closed, once and as the last thing
    the callback does, whether the callback returns or [addJSON] panics;
    when [NewServerQuerier] fails the callback makes no other call, so
    nothing is closed that was not opened. *)
Theorem querier_closed_when_opened (timeout : Z) (addr : string) (w : World) :
  trace (world_of (callback env timeout addr w))
  = (trace w ++ task_events env timeout addr)%list
  /\ (forall err, net_dial env addr = Some err ->
        task_events env timeout addr = [NewServerQuerier_call addr timeout])
  /\ (net_dial env addr = None ->
      exists mid,
        task_events env timeout addr
        = (NewServerQuerier_call addr timeout :: QueryInfo_call addr
           :: mid ++ [Close_call addr])%list
        /\ forall x t, ~ In (Close_call x) mid
                       /\ ~ In (NewServerQuerier_call x t) mid
                       /\ ~ In (QueryInfo_call x) mid).
Proof.
  split; [apply callback_trace|]. unfold task_events. split.
  - intros err ->. reflexivity.
  - intros ->. destruct (net_info env addr) as [info | err].
    + destruct (0 <? Valve.Players info); eexists; (split; [reflexivity|]);
        intros x t; cbn; repeat split; intros H;
        repeat (destruct H as [H | H]; [discriminate|]); exact H.
    + exists []. split; [reflexivity|]. intros x t. cbn. tauto.
Qed.

(** X4. The callback only ever appends whole entries: what the buffer
    held stays in front, and when [json.Marshal] refuses the outcome the
    callback panics with that error having written nothing and counted
    nothing.  It leaves [master] and the queue of the pool alone. *)
Theorem callback_appends_whole_entries
        (timeout : Z) (addr : string) (w : World) :
  (forall err,
     json_Marshal env (outcome env addr) = inr err ->
     exists w',
       callback env timeout addr w = Panic (Valve.PError err) w'
       /\ sOutputBuffer w' = sOutputBuffer w
       /\ sNumServers w' = sNumServers w)
  /\ (exists suffix,
        sOutputBuffer (world_of (callback env timeout addr w))
        = sOutputBuffer w ++ suffix)
  /\ master (world_of (callback env timeout addr w)) = master w
  /\ bp_queue (world_of (callback env timeout addr w)) = bp_queue w.
Proof.
  rewrite callback_spec. split; [|split; [|split]].
  - intros err ->. eexists. split; [reflexivity|]. unfold logged; proj.
    split; reflexivity.
  - destruct (json_Marshal env (outcome env addr)) as [buf | err];
      unfold world_of, logged, after_entry; proj.
    + eexists. reflexivity.
    + exists EmptyString. now rewrite append_nil_r.
  - destruct (json_Marshal env (outcome env addr));
      unfold world_of, logged, after_entry; proj; reflexivity.
  - destruct (json_Marshal env (outcome env addr));
      unfold world_of, logged, after_entry; proj; reflexivity.
Qed.

(** The record the callback hands to [addJSON] for an address whose info
    query succeeded. *)
Definition reported (addr : string) (info : Valve.ServerInfo)
  : ServerObject Player :=
  let out := build_out env addr info in
  if 0 <? Valve.Players info
  then match net_players env addr with
       | inr _ => set_PlayersOnline None out
       | inl players => set_PlayersOnline players out
       end
  else out.

Lemma callback_reports (timeout : Z) (addr : string)
      (info : Valve.ServerInfo) (w : World) :
  net_dial env addr = None ->
  net_info env addr = inl info ->
  callback env timeout addr w
  = match json_Marshal env (JServer (reported addr info)) with
    | inl buf =>
        Ok tt (logged (task_events env timeout addr)
                 (after_entry env addr buf w))
    | inr err =>
        Panic (Valve.PError err) (logged (task_events env timeout addr) w)
    end.
Proof.
  intros Hd Hi. rewrite callback_spec. unfold outcome, reported.
  rewrite Hd, Hi. reflexivity.
Qed.

Lemma reported_fields (addr : string) (info : Valve.ServerInfo) :
  forall (P : ServerObject Player -> Prop),
    (forall p, P (set_PlayersOnline p (build_out env addr info))) ->
    P (build_out env addr info) ->
    P (reported addr info).
Proof.
  intros P Hset Hout. unfold reported.
  destruct (0 <? Valve.Players info); [|exact Hout].
  destruct (net_players env addr); apply Hset.
Qed.

(** X5. The server record of an address copies the info reply: the key
    is the address, and protocol, name, map, folder, game and the three
    player counts are those of the reply whatever its other fields are;
    [vac] is set exactly when the byte is 1; without an extended block the
    six extended fields keep their zero values, with one they are its
    fields, the two 64-bit ids in decimal. *)
Theorem record_copies_info
        (timeout : Z) (addr : string) (info : Valve.ServerInfo) (w : World) :
  net_dial env addr = None ->
  net_info env addr = inl info ->
  exists so,
    callback env timeout addr w
    = match json_Marshal env (JServer so) with
      | inl buf =>
          Ok tt (logged (task_events env timeout addr)
                   (after_entry env addr buf w))
      | inr err =>
          Panic (Valve.PError err) (logged (task_events env timeout addr) w)
      end
    /\ Address so = addr
    /\ Protocol so = Valve.Protocol info
    /\ Name so = Valve.Name info
    /\ MapName so = Valve.MapName info
    /\ Folder so = Valve.Folder info
    /\ Game so = Valve.Game info
    /\ Players so = Valve.Players info
    /\ MaxPlayers so = Valve.MaxPlayers info
    /\ Bots so = Valve.Bots info
    /\ Vac so = (Valve.Vac info =? 1)
    /\ match Valve.Ext info with
       | None =>
           AppID so = 0 /\ GameVersion so = EmptyString /\ Port so = 0
           /\ SteamID so = EmptyString /\ GameMode so = EmptyString
           /\ GameID so = EmptyString
       | Some ext =>
           AppID so = Valve.AppId ext
           /\ GameVersion so = Valve.GameVersion ext
           /\ Port so = Valve.Port ext
           /\ SteamID so = fmt_d (Valve.SteamId ext)
           /\ GameMode so = Valve.GameModeDescription ext
           /\ GameID so = fmt_d (Valve.GameId ext)
       end.
Proof.
  intros Hd Hi. exists (reported addr info).
  split; [now apply callback_reports|].
  apply reported_fields; [intros p|]; unfold build_out;
    destruct (Valve.Vac info =? 1); destruct (Valve.Visibility info =? 0);
    destruct (Valve.Ext info); cbn; repeat split.
Qed.

(** X6. The roster of the record: when the info reply counts players and
    the player query succeeds, [PlayersOnline] is the roster the query
    returned, as returned; when the reply counts no player it is [nil],
    whatever the server would have answered. *)
Theorem roster_is_the_one_returned
        (timeout : Z) (addr : string) (info : Valve.ServerInfo) (w : World) :
  net_dial env addr = None ->
  net_info env addr = inl info ->
  exists so,
    callback env timeout addr w
    = match json_Marshal env (JServer so) with
      | inl buf =>
          Ok tt (logged (task_events env timeout addr)
                   (after_entry env addr buf w))
      | inr err =>
          Panic (Valve.PError err) (logged (task_events env timeout addr) w)
      end
    /\ (forall roster,
          0 < Valve.Players info -> net_players env addr = inl roster ->
          PlayersOnline so = roster)
    /\ (Valve.Players info <= 0 -> PlayersOnline so = None).
Proof.
  intros Hd Hi. exists (reported addr info).
  split; [now apply callback_reports|]. unfold reported. split.
  - intros roster Hp Hr. apply Z.ltb_lt in Hp. rewrite Hp, Hr. reflexivity.
  - intros Hp. apply Z.ltb_ge in Hp. rewrite Hp. unfold build_out.
    destruct (Valve.Vac info =? 1); destruct (Valve.Visibility info =? 0);
      destruct (Valve.Ext info); reflexivity.
Qed.

(** X7. A request starts afresh: whatever an earlier request left in the
    buffer, the counter and the queue, the handler ends the same way, with
    the same response and the same state. *)
Theorem request_starts_afresh
        (m : Valve.MasterServerQuerier) (w : World)
        (b : string) (n : Z) (q : list TCPAddr) :
  Mastersteam.httpServer env m (with_queue q (with_count n (with_buffer b w)))
  = Mastersteam.httpServer env m w.
Proof.
  unfold Mastersteam.httpServer, bind at 1 2 4 5, modify.
  rewrite !newServerQuerier_unfold. reflexivity.
Qed.

(** *** A run that completes, event by event *)

Lemma newServerQuerier_events (w : World) :
  Valve.failure (master w) = None ->
  marshals env (List.concat (Valve.pages (master w))) ->
  Z.of_nat (List.length (List.concat (Valve.pages (master w)))) < 2 ^ 63 ->
  exists done rest w',
    List.concat (Valve.pages (master w)) = (done ++ rest)%list
    /\ newServerQuerier env w = Ok tt w'
    /\ trace w'
       = (trace w ++ flat_map (task_events env flagTimeout) done
          ++ Finish_call :: flat_map (task_events env flagTimeout) rest
          ++ [Terminate_call])%list
    /\ bp_queue w' = []
    /\ sOutputBuffer w'
       = header ++ entries_text env 0 (List.concat (Valve.pages (master w)))
         ++ footer (Z.of_nat
                      (List.length (List.concat (Valve.pages (master w)))))
    /\ sNumServers w'
       = Z.of_nat (List.length (List.concat (Valve.pages (master w)))).
Proof.
  intros Hf Hm Hn. rewrite newServerQuerier_unfold, Hf.
  destruct (Query_pages_running env (Valve.pages (master w)) None (trace w) []
              (started w) (started_running env w) Hm Hn)
    as (w1 & Hw1 & (done & Hall & Hbuf & Hcnt & Htr) & _).
  cbn [app] in Hall. exists done, (bp_queue w1). unfold TCPAddr in *.
  rewrite Hall in Hm, Hn. apply marshals_app in Hm. destruct Hm as [_ Hq].
  rewrite length_app, Nat2Z.inj_add in Hn.
  unfold defer, bind at 1 2. rewrite Hw1. unfold on_error, ret.
  unfold finish_and_close, Finish. unfold bind at 1 2 3. unfold emit at 1.
  unfold modify at 1. unfold gets at 1. proj.
  unfold the_bp at 1. cbn [bp_callback].
  rewrite work_ran; proj; unfold TCPAddr in *; [|exact Hq|lia|lia].
  rewrite firstn_all, skipn_all. unfold Terminate. step.
  eexists. split; [exact Hall|]. split; [reflexivity|].
  unfold ran; proj. rewrite Hall, Hbuf, Hcnt, Htr, entries_text_app,
    length_app, Nat2Z.inj_add.
  cbn [Z.add]. unfold footer. rewrite !append_assoc, <- !app_assoc.
  cbn [app]. repeat split.
Qed.

(** X8. On a run that completes, [bp.Finish()] is called once, after the
    tasks the pool got through during the enumeration and before the rest,
    and the deferred [bp.Terminate()] is the last thing that happens; every
    submitted address had its task, in the order submitted, and the queue
    is empty at the end. *)
Theorem run_finishes_then_terminates
        (m : Valve.MasterServerQuerier) (w : World) :
  Valve.failure m = None ->
  marshals env (List.concat (Valve.pages m)) ->
  Z.of_nat (List.length (List.concat (Valve.pages m))) < 2 ^ 63 ->
  exists done rest resp w',
    Mastersteam.httpServer env m w = Ok resp w'
    /\ List.concat (Valve.pages m) = (done ++ rest)%list
    /\ trace w'
       = (trace w ++ flat_map (task_events env flagTimeout) done
          ++ Finish_call :: flat_map (task_events env flagTimeout) rest
          ++ [Terminate_call])%list
    /\ bp_queue w' = [].
Proof.
  intros Hf Hm Hn.
  destruct (newServerQuerier_events (with_master m w) Hf Hm Hn)
    as (done & rest & w' & Hall & Hw & Htr & Hq & _).
  proj. exists done, rest. unfold Mastersteam.httpServer, bind at 1 2, modify.
  rewrite Hw. step. do 2 eexists. split; [reflexivity|]. now repeat split.
Qed.

(** X9. A directory that lists no address: the response is the empty
    envelope with a total of 0, no server is contacted, and the run is
    [Finish] then [Terminate]; this needs nothing of [json.Marshal]. *)
Theorem empty_directory_gives_empty_envelope
        (m : Valve.MasterServerQuerier) (w : World) :
  Valve.failure m = None ->
  List.concat (Valve.pages m) = [] ->
  exists w',
    Mastersteam.httpServer env m w
    = Ok {| ContentType := "application/json; charset=UTF-8";
            Body := header ++ footer 0 |} w'
    /\ sNumServers w' = 0
    /\ trace w' = (trace w ++ [Finish_call; Terminate_call])%list.
Proof.
  intros Hf He.
  assert (Hm : marshals env (List.concat (Valve.pages m)))
    by (rewrite He; intros a []).
  assert (Hn : Z.of_nat (List.length (List.concat (Valve.pages m))) < 2 ^ 63)
    by (rewrite He; reflexivity).
  destruct (newServerQuerier_events (with_master m w) Hf Hm Hn)
    as (done & rest & w' & Hall & Hw & Htr & _ & Hbuf & Hcnt).
  proj. rewrite He in Hall, Hbuf, Hcnt.
  symmetry in Hall. apply app_eq_nil in Hall. destruct Hall as [-> ->].
  exists w'. unfold Mastersteam.httpServer, bind at 1 2, modify.
  rewrite Hw. step. rewrite Hbuf. cbn [entries_text List.length Z.of_nat].
  split; [reflexivity|]. split; [exact Hcnt | exact Htr].
Qed.

End Facts.

(** *** On the sample deployment *)

(** A directory whose two pages are empty. *)
Definition empty_master : Valve.MasterServerQuerier :=
  {| Valve.pages := [[]; []]; Valve.failure := None |}.

Lemma record_copies_info_witness :
  exists so,
    callback sample_env flagTimeout server2 sample_world
    = match sample_marshal (JServer so) with
      | inl buf =>
          Ok tt (logged (task_events sample_env flagTimeout server2)
                   (after_entry sample_env server2 buf sample_world))
      | inr err =>
          Panic (Valve.PError err)
            (logged (task_events sample_env flagTimeout server2) sample_world)
      end
    /\ Address so = server2
    /\ Protocol so = 17
    /\ Name so = "Arma 3"
    /\ MapName so = "Tanoa"
    /\ Folder so = "Arma3"
    /\ Game so = "End Game"
    /\ Players so = 3
    /\ MaxPlayers so = 28
    /\ Bots so = 0
    /\ Vac so = false
    /\ (AppID so = 0 /\ GameVersion so = EmptyString /\ Port so = 0
        /\ SteamID so = EmptyString /\ GameMode so = EmptyString
        /\ GameID so = EmptyString).
Proof.
  exact (record_copies_info sample_env flagTimeout server2 (sample_info 3 0)
           sample_world eq_refl eq_refl).
Defined.

Lemma roster_is_the_one_returned_witness :
  exists so,
    PlayersOnline so = Some ["Smith"; "jonas"]
    /\ callback roster_env flagTimeout server2 sample_world
       = match sample_marshal (JServer so) with
         | inl buf =>
             Ok tt (logged (task_events roster_env flagTimeout server2)
                      (after_entry roster_env server2 buf sample_world))
         | inr err =>
             Panic (Valve.PError err)
               (logged (task_events roster_env flagTimeout server2)
                  sample_world)
         end.
Proof.
  destruct (roster_is_the_one_returned roster_env flagTimeout server2
              (sample_info 3 0) sample_world eq_refl eq_refl)
    as (so & Hc & Hr & _).
  exists so. split; [apply Hr; reflexivity | exact Hc].
Defined.

Lemma run_finishes_then_terminates_witness :
  exists done rest resp w',
    Mastersteam.httpServer sample_env sample_master sample_world = Ok resp w'
    /\ [server1; server2; server3] = (done ++ rest)%list
    /\ trace w'
       = (flat_map (task_events sample_env flagTimeout) done
          ++ Finish_call :: flat_map (task_events sample_env flagTimeout) rest
          ++ [Terminate_call])%list
    /\ bp_queue w' = [].
Proof.
  exact (run_finishes_then_terminates sample_env sample_master sample_world
           eq_refl (sample_marshals _) eq_refl).
Defined.

Lemma empty_directory_gives_empty_envelope_witness :
  exists w',
    Mastersteam.httpServer sample_env empty_master sample_world
    = Ok {| ContentType := "application/json; charset=UTF-8";
            Body := header ++ footer 0 |} w'
    /\ sNumServers w' = 0
    /\ trace w' = [Finish_call; Terminate_call].
Proof.
  exact (empty_directory_gives_empty_envelope sample_env empty_master
           sample_world eq_refl eq_refl).
Defined.

End MastersteamExtra.

(* ================================================================== *)
(** ** The arguments of a request *)
(* ================================================================== *)

Module HandlersExtra.
Import Mastersteam Handlers.

Lemma Split_length (s : string) (sep : ascii) :
  List.length (Split s sep) = S (Count s sep).
Proof.
  induction s as [|c s IH]; cbn [Split Count]; [reflexivity|].
  destruct (Ascii.eqb c sep); cbn [List.length]; [now rewrite IH|].
  destruct (Split s sep) as [|piece pieces]; [discriminate IH | exact IH].
Qed.

Lemma Split_routed (route rest : string) :
  Count route "/" = O ->
  Split ("/" ++ route ++ "/" ++ rest) "/"
  = EmptyString :: route :: Split rest "/".
Proof.
  intros Hr. cbn [append Split Ascii.eqb Bool.eqb]. f_equal.
  induction route as [|c route IH]; cbn [append Split Count] in *.
  - reflexivity.
  - destruct (Ascii.eqb c "/"); [discriminate Hr|]. now rewrite IH.
Qed.

Section Facts.

Variable Atoi : string -> Z * Valve.error.
Variable QueryUnescape : string -> string * Valve.error.
Variable search : Z -> string -> M Response.
Variable server : string -> M Response.

(** X10. [httpMasterSearch] needs a URL of four segments.  With fewer
    than three slashes the index expression panics with a run-time error
    before anything else is done (the state is untouched): such is
    [/search/<appid>] with no name pattern after it.  With three or more it
    goes on with the third segment through [Atoi] and the fourth through
    [QueryUnescape], the error of either one dropped. *)
Theorem httpMasterSearch_needs_four_segments (url : string) (w : World) :
  ((Count url "/" < 3)%nat ->
     exists text,
       httpMasterSearch Atoi QueryUnescape search url w
       = Panic (Valve.PError (Valve.RuntimeError text)) w)
  /\ ((3 <= Count url "/")%nat ->
        exists seg2 seg3,
          nth_error (Split url "/") 2 = Some seg2
          /\ nth_error (Split url "/") 3 = Some seg3
          /\ httpMasterSearch Atoi QueryUnescape search url w
             = search (fst (Atoi seg2)) (fst (QueryUnescape seg3)) w)
  /\ (forall rest,
        Count rest "/" = O ->
        exists text,
          httpMasterSearch Atoi QueryUnescape search
            ("/search/" ++ rest) w
          = Panic (Valve.PError (Valve.RuntimeError text)) w).
Proof.
  assert (Hshort : forall u,
            (Count u "/" < 3)%nat ->
            exists text,
              httpMasterSearch Atoi QueryUnescape search u w
              = Panic (Valve.PError (Valve.RuntimeError text)) w).
  { intros u Hc. unfold httpMasterSearch, index, bind.
    assert (H3 : nth_error (Split u "/") 3 = None).
    { apply nth_error_None. rewrite Split_length. lia. }
    destruct (nth_error (Split u "/") 2) as [seg|].
    - unfold ret. destruct (Atoi seg) as [appID e]. rewrite H3.
      eexists. reflexivity.
    - eexists. reflexivity. }
  split; [apply Hshort|]. split.
  - intros Hc. unfold httpMasterSearch, index, bind.
    destruct (nth_error (Split url "/") 2) as [seg2|] eqn:E2.
    2:{ apply nth_error_None in E2. rewrite Split_length in E2. lia. }
    destruct (nth_error (Split url "/") 3) as [seg3|] eqn:E3.
    2:{ apply nth_error_None in E3. rewrite Split_length in E3. lia. }
    exists seg2, seg3. unfold ret. repeat split.
    destruct (Atoi seg2), (QueryUnescape seg3). reflexivity.
  - intros rest Hr. apply Hshort.
    change ("/search/" ++ rest) with ("/" ++ "search" ++ "/" ++ rest).
    pose proof (Split_length ("/" ++ "search" ++ "/" ++ rest) "/") as Hl.
    rewrite Split_routed in Hl by reflexivity.
    cbn [List.length] in Hl. rewrite Split_length, Hr in Hl. lia.
Qed.

(** X11. [httpServer] never fails on a URL under its route: after
    [/server/] there is always a third segment, and the host handed on is
    that segment unescaped, up to the next slash if there is one, whatever
    error [QueryUnescape] reports. *)
Theorem httpServer_takes_the_third_segment (rest : string) (w : World) :
  exists host tail,
    Split rest "/" = host :: tail
    /\ httpServer QueryUnescape server ("/server/" ++ rest) w
       = server (fst (QueryUnescape host)) w.
Proof.
  change ("/server/" ++ rest) with ("/" ++ "server" ++ "/" ++ rest).
  unfold httpServer. rewrite Split_routed by reflexivity.
  pose proof (Split_length rest "/") as Hl.
  destruct (Split rest "/") as [|host tail]; [discriminate Hl|].
  exists host, tail. split; [reflexivity|].
  unfold index, bind, ret. cbn [nth_error].
  destruct (QueryUnescape host). reflexivity.
Qed.

End Facts.

End HandlersExtra.

(* ================================================================== *)
(** ** Overlapping calls of [addJSON] *)
(* ================================================================== *)

Module RaceSpec.
Import Mastersteam MastersteamSpec Race.

(** The key of an entry, as line 76 writes it. *)
Definition key_text (host : string) : string :=
  LF ++ TAB ++ QUOTE ++ host ++ QUOTE ++ ": ".

(** What a call leaves when no other call overlaps it. *)
Lemma alone_spec (host text : string) (w : World) :
  snd (alone (call host text) w)
  = with_count (wrap64 (sNumServers w + 1))
      (with_buffer
         (sOutputBuffer w
          ++ (if sNumServers w =? 0 then EmptyString else ",")
          ++ key_text host ++ text) w).
Proof.
  unfold alone, call, step, key_text. cbn [pc].
  destruct (sNumServers w =? 0) eqn:E;
    cbn [negb at_pc pc hostAndPort indented fst snd]; proj;
    apply world_ext; proj; try reflexivity; now rewrite !append_assoc.
Qed.

Section Facts.

Context {Player : Type}.
Variable env : Env Player.

(** A call that no other call overlaps is [addJSON] as written: the steps
    are a cut of the function, not another function. *)
Lemma alone_is_addJSON (host : string) (obj : JObj Player) (w : World) :
  match enter env host obj with
  | inl c =>
      addJSON env host obj w = Ok tt (snd (alone c w))
      /\ pc (fst (alone c w)) = Returned
  | inr err => addJSON env host obj w = Panic (Valve.PError err) w
  end.
Proof.
  rewrite addJSON_spec. unfold enter.
  destruct (json_Marshal env obj) as [buf | err]; [|reflexivity].
  unfold alone, call, step, after_entry, entry_text. cbn [pc].
  destruct (sNumServers w =? 0) eqn:E; cbn [negb at_pc pc hostAndPort indented
                                             fst snd]; proj.
  - split; [|reflexivity]. f_equal. apply world_ext; proj; try reflexivity.
    now rewrite !append_assoc.
  - split; [|reflexivity]. f_equal. apply world_ext; proj; try reflexivity.
    now rewrite !append_assoc.
Qed.

End Facts.

(** C2, where the code departs from it. Two workers call [addJSON] side
    by side on a fresh buffer: each finds the counter at 0, writes its entry
    and reads the counter before the other writes it back.  Both entries
    are in the output, with no comma between them, and the counter is 1:
    the envelope closes with a ["total"] of 1 over two entries.  (One after
    the other, the same two calls leave a comma and a counter of 2.) *)
Theorem two_workers_lose_a_count (a b ta tb : string) (w : World) :
  exists ca cb w',
    run side_by_side [call a ta; call b tb] (with_count 0 w) = ([ca; cb], w')
    /\ pc ca = Returned
    /\ pc cb = Returned
    /\ sOutputBuffer w'
       = sOutputBuffer w ++ key_text a ++ ta ++ key_text b ++ tb
    /\ sNumServers w' = 1
    /\ (exists w'',
          close_envelope w' = Ok tt w''
          /\ sOutputBuffer w''
             = sOutputBuffer w ++ key_text a ++ ta ++ key_text b ++ tb
               ++ footer 1)
    /\ sNumServers
         (snd (alone (call b tb) (snd (alone (call a ta) (with_count 0 w)))))
       = 2
    /\ sOutputBuffer
         (snd (alone (call b tb) (snd (alone (call a ta) (with_count 0 w)))))
       = sOutputBuffer w ++ key_text a ++ ta ++ "," ++ key_text b ++ tb.
Proof.
  do 3 eexists. split; [reflexivity|]. cbn [pc at_pc].
  split; [reflexivity|]. split; [reflexivity|]. proj.
  unfold key_text. split; [now rewrite !append_assoc|].
  split; [reflexivity|]. split.
  - eexists. split; [reflexivity|]. unfold close_envelope, footer. step.
    cbn [hostAndPort indented]. now rewrite !append_assoc.
  - rewrite !alone_spec. proj.
    change (wrap64 (0 + 1)) with 1. change (1 =? 0) with false.
    change (0 =? 0) with true. change (wrap64 (1 + 1)) with 2.
    split; [reflexivity|]. unfold key_text. cbn [append].
    now rewrite !append_assoc.
Qed.

(** The same on the sample deployment: the callbacks of the first and the
    third server reach [addJSON] together. *)
Example two_sample_workers :
  enter sample_env server1 (outcome sample_env server1)
  = inl (call server1 "{ip:10.0.0.1:27015,players:0,visibility:private}")
  /\ enter sample_env server3 (outcome sample_env server3)
     = inl (call server3 "{ip:10.0.0.3:27015,error:i/o timeout}")
  /\ sNumServers
       (snd (run side_by_side
               [call server1
                  "{ip:10.0.0.1:27015,players:0,visibility:private}";
                call server3 "{ip:10.0.0.3:27015,error:i/o timeout}"]
               sample_world))
     = 1.
Proof. repeat split. Qed.

End RaceSpec.
